(** * Revenue converter: a shallow embedding of [contract.rs] and [state.rs]

    Unsigned Rust integers are modelled as [Z] with their range written out:
    [Uint128] values lie in [0, 2^128 - 1], the [u8] distribution weights in
    [0, 255].  A Rust panic (arithmetic overflow, [Decimal::from_ratio] with a
    zero denominator, an [unwrap] on an error) aborts the whole transaction and
    is modelled by the [Abort] outcome; contract errors by [Err].

    The snapshot of [state.rs] still declares the older single-target
    [Config] (fields [target_denom] and [target_address]); [contract.rs] and its
    tests use [target_denoms : Vec<Denom>] and
    [target_addresses : Vec<(Addr, u8)>].  [Config] below follows the uses in
    [contract.rs]. *)

From Stdlib Require Import ZArith List String Ascii Bool Lia Sorted.
Import ListNotations.
Open Scope string_scope.
Open Scope Z_scope.
Open Scope list_scope.

(** ** Primitive types *)

Definition Addr := string.
Definition Denom := string.
(** [Binary]: the opaque message payload of an Action. *)
Definition Binary := string.

Definition UINT128_MAX : Z := 2 ^ 128 - 1.
Definition U8_MAX : Z := 255.
(** [Decimal::DECIMAL_FRACTIONAL]: [Decimal] stores [x] as the [Uint128]
    [x * 10^18]. *)
Definition DECIMAL_FRACTIONAL : Z := 10 ^ 18.

Definition is_u8 (x : Z) : Prop := 0 <= x <= U8_MAX.
Definition is_u128 (x : Z) : Prop := 0 <= x <= UINT128_MAX.

(** ** Errors and outcomes *)

Inductive StdError :=
| GenericErr (msg : string).

Inductive ContractError :=
| Std (e : StdError)
| Unauthorized.

Inductive result (A : Type) : Type :=
| Ok (a : A)
| Err (e : ContractError)
| Abort (panic : string).

Arguments Ok {A} a.
Arguments Err {A} e.
Arguments Abort {A} panic.

Definition bind_result {A B} (r : result A) (f : A -> result B) : result B :=
  match r with
  | Ok a => f a
  | Err e => Err e
  | Abort p => Abort p
  end.

Notation "'let*' x ':=' r 'in' f" := (bind_result r (fun x => f))
  (at level 200, x name, r at level 100, f at level 200).

(** ** Checked integer arithmetic *)

(** [u8 + u8], with the overflow checks of a CosmWasm release build. *)
Definition u8_add (a b : Z) : result Z :=
  if a + b <=? U8_MAX then Ok (a + b) else Abort "attempt to add with overflow".

(** [Uint128 - Uint128] ([Sub] panics on underflow). *)
Definition uint128_sub (a b : Z) : result Z :=
  if b <=? a then Ok (a - b) else Abort "attempt to subtract with overflow".

(** [Decimal::from_ratio(n, d)]: the atomics [floor(n * 10^18 / d)], computed
    in [Uint256] and converted back to [Uint128]; panics on a zero
    denominator and on overflow. *)
Definition decimal_from_ratio (n d : Z) : result Z :=
  if d =? 0 then Abort "Denominator must not be zero"
  else
    let r := n * DECIMAL_FRACTIONAL / d in
    if r <=? UINT128_MAX then Ok r else Abort "Multiplication overflow".

(** [Uint128::mul_floor(self, ratio)] for a [Decimal] ratio given by its
    atomics: [floor(self * atomics / 10^18)], computed in [Uint256]. *)
Definition uint128_mul_floor (x atomics : Z) : result Z :=
  let r := x * atomics / DECIMAL_FRACTIONAL in
  if r <=? UINT128_MAX then Ok r else Abort "ConversionOverflowError".

(** ** Messages *)

Module Coin.
Record t := mk { denom : Denom; amount : Z }.
End Coin.

(** [cosmwasm_std::coins(amount, denom)] *)
Definition coins (amount : Z) (denom : Denom) : list Coin.t :=
  [Coin.mk denom amount].

Inductive CosmosMsg :=
| BankSend (to_address : Addr) (amount : list Coin.t)
| WasmExecute (contract_addr : Addr) (msg : Binary) (funds : list Coin.t).

(** [kujira::Denom::send(&self, to, amount)] *)
Definition denom_send (denom : Denom) (to : Addr) (amount : Z) : CosmosMsg :=
  BankSend to (coins amount denom).

(** ** Configuration *)

Record Config := mkConfig {
  owner : Addr;
  executor : Addr;
  target_denoms : list Denom;
  target_addresses : list (Addr * Z)
}.

(** The bank balances of the contract: [querier.query_balance(contract, d)]
    returns the coin [{denom: d, amount: balances d}]. *)
Definition Balances := Denom -> Z.

Definition query_balance (bal : Balances) (d : Denom) : Coin.t :=
  Coin.mk d (bal d).

(** ** Distribution engine: [distribute_denom] *)

(** [config.target_addresses.iter().fold(0, |a, e| e.1 + a)]: the
    accumulator is a [u8]. *)
Fixpoint fold_weights (a : Z) (targets : list (Addr * Z)) : result Z :=
  match targets with
  | [] => Ok a
  | (_, w) :: rest =>
      let* a' := u8_add w a in
      fold_weights a' rest
  end.

(** The [while let Some((addr, weight)) = targets.next()] loop; the peek
    at the rest decides whether the current target is the last one. *)
Fixpoint distribute_loop (denom : Denom) (balance total_weight remaining : Z)
    (targets : list (Addr * Z)) (sends : list CosmosMsg)
    : result (list CosmosMsg) :=
  match targets with
  | [] => Ok sends
  | (addr, weight) :: rest =>
      let* amount :=
        match rest with
        | [] => Ok remaining
        | _ :: _ =>
            let* ratio := decimal_from_ratio weight total_weight in
            uint128_mul_floor balance ratio
        end in
      if amount =? 0
      then distribute_loop denom balance total_weight remaining rest sends
      else
        let* remaining' := uint128_sub remaining amount in
        distribute_loop denom balance total_weight remaining' rest
          (sends ++ [denom_send denom addr amount])
  end.

Definition distribute_denom (bal : Balances) (config : Config)
    (sends : list CosmosMsg) (denom : Denom) : result (list CosmosMsg) :=
  let balance := query_balance bal denom in
  let* total_weight := fold_weights 0 config.(target_addresses) in
  if negb (Coin.amount balance =? 0) then
    distribute_loop denom (Coin.amount balance) total_weight
      (Coin.amount balance) config.(target_addresses) sends
  else Ok sends.

(** ** Storage: [CONFIG], [LAST] and the [ACTIONS] map *)

(** Key order of a [cw_storage_plus::Map<String, _>]: lexicographic on the
    key bytes. *)
Definition str_ltb (a b : string) : bool :=
  match String.compare a b with Lt => true | _ => false end.

(** The value stored under a denom: [(Addr, Uint128, Binary)]. *)
Definition ActionEntry : Type := (Addr * Z * Binary)%type.

(** The [ACTIONS] map as its ascending list of entries. *)
Definition ActionMap : Type := list (string * ActionEntry).

Record Storage := mkStorage {
  CONFIG : Config;
  LAST : option string;
  ACTIONS : ActionMap
}.

(** [Map::range(storage, min, None, Order::Ascending)] with an exclusive
    lower bound. *)
Definition range (min : option string) (m : ActionMap) : ActionMap :=
  match min with
  | None => m
  | Some k => filter (fun e => str_ltb k (fst e)) m
  end.

(** [Map::save]: insert or overwrite, keeping the keys ascending. *)
Fixpoint map_save (k : string) (v : ActionEntry) (m : ActionMap) : ActionMap :=
  match m with
  | [] => [(k, v)]
  | (k', v') :: rest =>
      match String.compare k k' with
      | Lt => (k, v) :: m
      | Eq => (k, v) :: rest
      | Gt => (k', v') :: map_save k v rest
      end
  end.

(** [Map::remove]. *)
Definition map_remove (k : string) (m : ActionMap) : ActionMap :=
  filter (fun e => negb (String.eqb (fst e) k)) m.

Definition save_last (st : Storage) (k : string) : Storage :=
  mkStorage st.(CONFIG) (Some k) st.(ACTIONS).

Definition save_actions (st : Storage) (m : ActionMap) : Storage :=
  mkStorage st.(CONFIG) st.(LAST) m.

Definition save_config (st : Storage) (c : Config) : Storage :=
  mkStorage c st.(LAST) st.(ACTIONS).

(** ** Actions *)

Record Action := mkAction {
  denom : Denom;
  contract : Addr;
  limit : Z;
  msg : Binary
}.

(** [Action::load]: persists the cursor, then builds the Action. *)
Definition action_load (st : Storage) (res : string * ActionEntry)
    : Action * Storage :=
  let '(d, (c, l, m)) := res in
  (mkAction d c l m, save_last st d).

(** [Action::next] *)
Definition action_next (st : Storage) : option Action * Storage :=
  let min := st.(LAST) in
  match hd_error (range min st.(ACTIONS)) with
  | Some res => let '(a, st') := action_load st res in (Some a, st')
  | None =>
      (* If there's nothing next, try the start *)
      match hd_error st.(ACTIONS) with
      | Some res => let '(a, st') := action_load st res in (Some a, st')
      | None => (None, st)
      end
  end.

(** [Action::set] and [Action::unset] *)
Definition action_set (st : Storage) (a : Action) : Storage :=
  save_actions st (map_save a.(denom) (a.(contract), a.(limit), a.(msg)) st.(ACTIONS)).

Definition action_unset (st : Storage) (d : Denom) : Storage :=
  save_actions st (map_remove d st.(ACTIONS)).

(** [Action::execute] *)
Definition action_execute (self : Action) (amount : Coin.t)
    : result (option CosmosMsg) :=
  if negb (String.eqb (Coin.denom amount) self.(denom)) then
    Err (Std (GenericErr "Invalid Denom"))
  else
    let total := Z.min (Coin.amount amount) self.(limit) in
    if total =? 0 then Ok None
    else Ok (Some (WasmExecute self.(contract) self.(msg)
                     (coins total (Coin.denom amount)))).

(** ** Responses *)

Record Event := mkEvent { ty : string; attributes : list (string * string) }.

Inductive ReplyOn := Never | Always.

Record SubMsg := mkSubMsg { id : Z; sub_msg : CosmosMsg; reply_on : ReplyOn }.

Record Response := mkResponse { messages : list SubMsg; events : list Event }.

Definition response_default : Response := mkResponse [] [].

(** [SubMsg::new] and [SubMsg::reply_always] *)
Definition submsg_new (m : CosmosMsg) : SubMsg := mkSubMsg 0 m Never.
Definition submsg_reply_always (m : CosmosMsg) (i : Z) : SubMsg := mkSubMsg i m Always.

Definition add_messages (r : Response) (ms : list CosmosMsg) : Response :=
  mkResponse (r.(messages) ++ map submsg_new ms) r.(events).
Definition add_submessage (r : Response) (s : SubMsg) : Response :=
  mkResponse (r.(messages) ++ [s]) r.(events).
Definition add_event (r : Response) (e : Event) : Response :=
  mkResponse r.(messages) (r.(events) ++ [e]).

(** ** The entry points, in a state and error monad over [Storage] *)

Definition M (A : Type) : Type := Storage -> result A * Storage.

Definition ret {A} (a : A) : M A := fun s => (Ok a, s).

Definition bindM {A B} (m : M A) (f : A -> M B) : M B :=
  fun s =>
    let '(r, s') := m s in
    match r with
    | Ok a => f a s'
    | Err e => (Err e, s')
    | Abort p => (Abort p, s')
    end.

Definition throw {A} (e : ContractError) : M A := fun s => (Err e, s).
Definition lift {A} (r : result A) : M A := fun s => (r, s).
Definition modify (f : Storage -> Storage) : M unit := fun s => (Ok tt, f s).
Definition get_storage : M Storage := fun s => (Ok s, s).

Notation "x <- m ;; f" := (bindM m (fun x => f))
  (at level 61, m at next level, right associativity).

Definition config_load : M Config := fun s => (Ok s.(CONFIG), s).

Definition action_next_M : M (option Action) :=
  fun s => let '(a, s') := action_next s in (Ok a, s').

Inductive ExecuteMsg :=
| SetOwner (a : Addr)
| SetExecutor (a : Addr)
| SetAction (a : Action)
| UnsetAction (d : Denom)
| Run.

(** [get_action_msg]: the contract's balances are [bal]. *)
Definition get_action_msg (bal : Balances) : M (option (Action * CosmosMsg)) :=
  next <- action_next_M ;;
  match next with
  | Some action =>
      let balance := query_balance bal action.(denom) in
      r <- lift (action_execute action balance) ;;
      match r with
      | None => ret None
      | Some m => ret (Some (action, m))
      end
  | None => ret None
  end.

(** [execute] *)
Definition execute (bal : Balances) (sender : Addr) (m : ExecuteMsg) : M Response :=
  config <- config_load ;;
  match m with
  | SetOwner o =>
      if negb (String.eqb sender config.(owner)) then throw Unauthorized
      else
        _ <- modify (fun st => save_config st
               (mkConfig o config.(executor) config.(target_denoms) config.(target_addresses))) ;;
        ret response_default
  | SetAction action =>
      if negb (String.eqb sender config.(owner)) then throw Unauthorized
      else
        _ <- modify (fun st => action_set st action) ;;
        ret response_default
  | UnsetAction d =>
      if negb (String.eqb sender config.(owner)) then throw Unauthorized
      else
        _ <- modify (fun st => action_unset st d) ;;
        ret response_default
  | SetExecutor e =>
      if negb (String.eqb sender config.(owner)) then throw Unauthorized
      else
        _ <- modify (fun st => save_config st
               (mkConfig config.(owner) e config.(target_denoms) config.(target_addresses))) ;;
        ret response_default
  | Run =>
      if negb (String.eqb sender config.(executor)) then throw Unauthorized
      else
        action_msg <- get_action_msg bal ;;
        match action_msg with
        | Some (action, msg) =>
            let event := mkEvent "revenue/run" [("denom", action.(denom))] in
            ret (add_submessage (add_event response_default event)
                   (submsg_reply_always msg 0))
        | None =>
            (* If there's no compatible action, skip to the reply *)
            sends <- lift
              ((fix go (ts : list Denom) (sends : list CosmosMsg) :=
                  match ts with
                  | [] => Ok sends
                  | target :: rest =>
                      let* sends' := distribute_denom bal config sends target in
                      go rest sends'
                  end) config.(target_denoms) []) ;;
            ret (add_messages response_default sends)
        end
  end.

(** [execute_reply]: read-only access to the storage. *)
Definition execute_reply (st : Storage) (bal : Balances) : result Response :=
  let config := st.(CONFIG) in
  let* sends :=
    (fix go (ts : list Denom) (sends : list CosmosMsg) :=
       match ts with
       | [] => Ok sends
       | target :: rest =>
           let* sends' := distribute_denom bal config sends target in
           go rest sends'
       end) config.(target_denoms) [] in
  Ok (add_messages response_default sends).

(** The [reply] entry point. *)
Definition reply (bal : Balances) : M Response :=
  fun st => (execute_reply st bal, st).
(** ** Cranking scenarios *)

(** The contract's state after successive [Run] cranks by the executor,
    with the cursor after each crank. *)
Fixpoint crank_trace (bal : Balances) (n : nat) (st : Storage)
    : list (result Response * option string) :=
  match n with
  | O => []
  | S n' =>
      let '(r, st') := execute bal st.(CONFIG).(executor) Run st in
      (r, st'.(LAST)) :: crank_trace bal n' st'
  end.

(** [Uint128::MAX]: an unbounded Action limit. *)
Definition unbounded : Z := UINT128_MAX.

Definition scenario_config : Config :=
  mkConfig "owner" "executor" ["ukuji"; "another"] [("fee", 1)].

Definition scenario_balances : Balances :=
  fun d =>
    if String.eqb d "token-b" then 1000
    else if String.eqb d "token-c" then 1000
    else if String.eqb d "token-d" then 1000
    else if String.eqb d "token-e" then 1000
    else 0.

(** Ledger {A, B, C} of the scenario as stated. *)
Definition ledger_abc : ActionMap :=
  [("token-a", ("contract-a", unbounded, ""));
   ("token-b", ("contract-b", unbounded, ""));
   ("token-c", ("contract-c", 100, ""))].

(** Ledger {A, B, C, D, E} of the [cranking] test. *)
Definition ledger_abcde : ActionMap :=
  ledger_abc ++
  [("token-d", ("contract-d", unbounded, ""));
   ("token-e", ("contract-e", unbounded, ""))].

Definition run_response (d c : string) (amount : Z) : Response :=
  mkResponse [mkSubMsg 0 (WasmExecute c "" [Coin.mk d amount]) Always]
             [mkEvent "revenue/run" [("denom", d)]].

(** ** Specification-side helpers *)

(** Messages gated to the owner. *)
Definition owner_gated (m : ExecuteMsg) : bool :=
  match m with Run => false | _ => true end.

(** A response carries only plain bank transfers: no event, no execution of
    any Action, no reply. *)
Definition only_transfers (r : Response) : Prop :=
  r.(events) = [] /\
  Forall (fun s => s.(reply_on) = Never /\ exists to c, s.(sub_msg) = BankSend to c)
    r.(messages).

Definition is_bank (m : CosmosMsg) : Prop := exists to c, m = BankSend to c.

(** The amount [balance.mul_floor(Decimal::from_ratio(w, total))] in closed
    form: the ratio is first floored to 18 decimals, then the product. *)
Definition decimal_share (b w total : Z) : Z :=
  b * (w * DECIMAL_FRACTIONAL / total) / DECIMAL_FRACTIONAL.

Fixpoint sum_weights (ts : list (Addr * Z)) : Z :=
  match ts with
  | [] => 0
  | (_, w) :: rest => w + sum_weights rest
  end.

Fixpoint sum_shares (b total : Z) (ts : list (Addr * Z)) : Z :=
  match ts with
  | [] => 0
  | (_, w) :: rest => decimal_share b w total + sum_shares b total rest
  end.

(** The transfers to the targets before the last: each its [decimal_share],
    zero amounts skipped. *)
Fixpoint share_sends (d : Denom) (b total : Z) (ts : list (Addr * Z))
    : list CosmosMsg :=
  match ts with
  | [] => []
  | (a, w) :: rest =>
      (if decimal_share b w total =? 0 then []
       else [denom_send d a (decimal_share b w total)]) ++
      share_sends d b total rest
  end.

(** The transfer of the remainder to the last target, skipped when zero. *)
Definition last_send (d : Denom) (a : Addr) (x : Z) : list CosmosMsg :=
  if x =? 0 then [] else [denom_send d a x].

(** The total amount carried by bank transfers. *)
Definition sent_total (ms : list CosmosMsg) : Z :=
  fold_right (fun m acc =>
    match m with
    | BankSend _ cs => fold_right (fun c a => Coin.amount c + a) 0 cs + acc
    | WasmExecute _ _ _ => acc
    end) 0 ms.

(** ** Cursor selection: specification-side predicates *)

(** The invariant of the [ACTIONS] map: keys strictly ascending, as the
    storage iterates them. *)
Definition keys_sorted (m : ActionMap) : Prop :=
  StronglySorted (fun x y => str_ltb (fst x) (fst y) = true) m.

(** A key lies strictly above the cursor bound ([None]: no bound). *)
Definition above (min : option string) (k : string) : bool :=
  match min with None => true | Some k0 => str_ltb k0 k end.

(** [k'] is the smallest key of [m] strictly above the bound [min]. *)
Definition least_key_above (min : option string) (m : ActionMap) (k' : string) : Prop :=
  In k' (map fst m) /\ above min k' = true /\
  forall j, In j (map fst m) -> above min j = true -> j = k' \/ str_ltb k' j = true.

(** The selection rule of the spec, for the result [res] of [next] on [st]:
    nothing (cursor unchanged) only on an empty ledger; otherwise the Action
    stored at the selected key [k'], with the cursor saved as [k'], where
    [k'] is the smallest key above the cursor, or the smallest key of all
    when there is no cursor or no key above it. *)
Definition next_spec (st : Storage) (res : option Action * Storage) : Prop :=
  match res with
  | (None, st') => st.(ACTIONS) = [] /\ st' = st
  | (Some a, st') =>
      exists c l m,
        In (a.(denom), (c, l, m)) st.(ACTIONS) /\
        a = mkAction a.(denom) c l m /\
        st' = save_last st a.(denom) /\
        (least_key_above st.(LAST) st.(ACTIONS) a.(denom) \/
         ((forall j, In j (map fst st.(ACTIONS)) -> above st.(LAST) j = false) /\
          least_key_above None st.(ACTIONS) a.(denom)))
  end.

(** The denoms selected by [n] successive calls of [Action::next]. *)
Fixpoint next_trace (n : nat) (st : Storage) : list (option Denom) :=
  match n with
  | O => []
  | S n' =>
      let '(a, st') := action_next st in
      option_map denom a :: next_trace n' st'
  end.

Definition opt_denom_eq_dec : forall x y : option Denom, {x = y} + {x <> y}.
Proof. decide equality. apply string_dec. Defined.

(** How many [j] of [l] have [(s + j) mod K = i]. *)
Definition residue_hits (K s i : nat) (l : list nat) : nat :=
  List.length (filter (fun j => Nat.eqb ((s + j) mod K) i) l).

(** ** Remaining entry points: [instantiate], [migrate] and [query] *)

(** [InstantiateMsg], with the fields that [contract.rs] and its tests give
    it (the snapshot of [msg.rs] still has a single [target_denom]). *)
Module InstantiateMsg.
Record t := mk {
  owner : Addr;
  executor : Addr;
  target_denoms : list Denom;
  target_addresses : list (Addr * Z)
}.
End InstantiateMsg.

(** [impl From<InstantiateMsg> for Config] *)
Definition config_from (value : InstantiateMsg.t) : Config :=
  mkConfig (InstantiateMsg.owner value) (InstantiateMsg.executor value)
    (InstantiateMsg.target_denoms value) (InstantiateMsg.target_addresses value).

(** The [cw2] contract-version item, kept in the same storage. *)
Module Cw2.
Record ContractVersion := mk { contract : string; version : string }.
End Cw2.

(** The whole contract storage: the [cw2] item beside [CONFIG], [LAST] and
    [ACTIONS]. *)
Record Deployment := mkDeployment {
  contract_info : option Cw2.ContractVersion;
  store : Storage
}.

Definition CONTRACT_NAME : string := "crates.io:kujira-revenue-converter".

(** [cw2::set_contract_version] *)
Definition set_contract_version (d : Deployment) (name version : string) : Deployment :=
  mkDeployment (Some (Cw2.mk name version)) d.(store).

Definition deployment_save_config (d : Deployment) (c : Config) : Deployment :=
  mkDeployment d.(contract_info) (save_config d.(store) c).

(** [instantiate]; [CONTRACT_VERSION] is the crate version
    ([env!("CARGO_PKG_VERSION")]). *)
Definition instantiate (CONTRACT_VERSION : string) (msg : InstantiateMsg.t)
    (d : Deployment) : result Response * Deployment :=
  let d := set_contract_version d CONTRACT_NAME CONTRACT_VERSION in
  let config := config_from msg in
  let d := deployment_save_config d config in
  (Ok response_default, d).

(** [migrate] *)
Definition migrate (CONTRACT_VERSION : string) (msg : InstantiateMsg.t)
    (d : Deployment) : result Response * Deployment :=
  let d := set_contract_version d CONTRACT_NAME CONTRACT_VERSION in
  let config := config_from msg in
  let d := deployment_save_config d config in
  (Ok response_default, d).

(** [Action::all]: the whole map in ascending order.  The storage of the
    embedding holds typed entries, so the decoding errors of the iterator
    cannot occur. *)
Definition action_all (st : Storage) : list Action :=
  map (fun e : string * ActionEntry =>
         let '(d, (c, l, m)) := e in mkAction d c l m) st.(ACTIONS).

(** [Action::last] *)
Definition action_last (st : Storage) : option string := st.(LAST).

(** The query responses of [msg.rs]. *)
Module ConfigResponse.
Record t := mk {
  owner : Addr;
  executor : Addr;
  target_denoms : list Denom;
  target_addresses : list (Addr * Z)
}.
End ConfigResponse.

Module ActionResponse.
Record t := mk { denom : Denom; contract : Addr; limit : Z; msg : Binary }.
End ActionResponse.

Record ActionsResponse := mkActionsResponse { actions : list ActionResponse.t }.

Record StatusResponse := mkStatusResponse { last : option Denom }.

(** [impl From<Config> for ConfigResponse] *)
Definition config_response_from (value : Config) : ConfigResponse.t :=
  ConfigResponse.mk value.(owner) value.(executor) value.(target_denoms)
    value.(target_addresses).

(** [impl From<Action> for ActionResponse] *)
Definition action_response_from (value : Action) : ActionResponse.t :=
  ActionResponse.mk value.(denom) value.(contract) value.(limit) value.(msg).

Module QueryMsg.
Inductive t := Config | Actions | Status.
End QueryMsg.

(** The value a query serialises with [to_json_binary]: one case per
    response type.  The JSON encoding itself is not modelled. *)
Inductive QueryAnswer :=
| ConfigAnswer (r : ConfigResponse.t)
| ActionsAnswer (r : ActionsResponse)
| StatusAnswer (r : StatusResponse).

(** [query] *)
Definition query (st : Storage) (m : QueryMsg.t) : result QueryAnswer :=
  match m with
  | QueryMsg.Config => Ok (ConfigAnswer (config_response_from st.(CONFIG)))
  | QueryMsg.Actions =>
      Ok (ActionsAnswer (mkActionsResponse
            (map (fun x => action_response_from x) (action_all st))))
  | QueryMsg.Status => Ok (StatusAnswer (mkStatusResponse (action_last st)))
  end.

(** ** Observations used by the properties *)

(** [Map::may_load]: the entry stored under [k]. *)
Definition map_load (k : string) (m : ActionMap) : option ActionEntry :=
  option_map snd (find (fun e : string * ActionEntry => String.eqb (fst e) k) m).

(** The list of the Actions query, as the contract answers it. *)
Definition queried_actions (st : Storage) : list ActionResponse.t :=
  match query st QueryMsg.Actions with
  | Ok (ActionsAnswer r) => r.(actions)
  | _ => []
  end.

(** The cursor reported by the Status query. *)
Definition queried_status (st : Storage) : option Denom :=
  match query st QueryMsg.Status with
  | Ok (StatusAnswer r) => r.(last)
  | _ => None
  end.

(** The configuration and balances of the [distribution] test. *)
Definition distribution_storage : Storage :=
  mkStorage (mkConfig "owner" "executor" ["ukuji"; "another"] [("fee", 1); ("another", 3)])
    None [].

Definition distribution_balances : Balances :=
  fun d =>
    if String.eqb d "ukuji" then 1000
    else if String.eqb d "another" then 2000
    else 0.

(** * Properties *)

Example distribute_test_ukuji :
  distribute_denom (fun _ => 1000)
    (mkConfig "owner" "executor" ["ukuji"] [("fee", 1); ("another", 3)]) [] "ukuji"
  = Ok [denom_send "ukuji" "fee" 250; denom_send "ukuji" "another" 750].
Proof. reflexivity. Qed.

Example distribute_test_another :
  distribute_denom (fun _ => 2000)
    (mkConfig "owner" "executor" ["another"] [("fee", 1); ("another", 3)]) [] "another"
  = Ok [denom_send "another" "fee" 500; denom_send "another" "another" 1500].
Proof. reflexivity. Qed.

Example distribute_test_thirds :
  distribute_denom (fun _ => 3)
    (mkConfig "owner" "executor" ["x"] [("a", 1); ("b", 2)]) [] "x"
  = Ok [denom_send "x" "b" 3].
Proof. reflexivity. Qed.

(** ** Action::execute *)

(** C5: for a balance coin of the Action's denom, [Action::execute] returns no
    operation exactly when [min(balance, limit)] is zero; otherwise it returns
    one Wasm execution on the Action's contract, with the Action's message and
    funds of exactly [min(balance, limit)] of the denom, which is at most the
    limit. *)
Theorem action_execute_capped : forall (a : Action) (b : Z),
  match action_execute a (Coin.mk a.(denom) b) with
  | Ok None => Z.min b a.(limit) = 0
  | Ok (Some (WasmExecute c m funds)) =>
      Z.min b a.(limit) <> 0 /\ c = a.(contract) /\ m = a.(msg) /\
      funds = [Coin.mk a.(denom) (Z.min b a.(limit))] /\
      Z.min b a.(limit) <= a.(limit)
  | _ => False
  end.
Proof.
  intros a b. unfold action_execute. simpl.
  rewrite String.eqb_refl. simpl.
  destruct (Z.min b (limit a) =? 0) eqn:Hz.
  - now apply Z.eqb_eq in Hz.
  - apply Z.eqb_neq in Hz. repeat split; auto. apply Z.le_min_r.
Qed.

(** C8: [Action::execute] fails with the "Invalid Denom" error exactly when
    the supplied coin's denom differs from the Action's denom. *)
Theorem action_execute_invalid_denom : forall (a : Action) (c : Coin.t),
  action_execute a c = Err (Std (GenericErr "Invalid Denom")) <->
  Coin.denom c <> a.(denom).
Proof.
  intros a c. unfold action_execute.
  destruct (String.eqb_spec (Coin.denom c) (denom a)) as [Heq | Hne]; simpl.
  - split; [|contradiction].
    destruct (Z.min _ _ =? 0); discriminate.
  - split; auto.
Qed.

(** ** Distribution engine *)

(** C10: with a single target, a non-zero balance is sent whole to that
    target, whatever its weight (zero included): the [Decimal::from_ratio]
    division by the total weight is never reached. *)
Theorem distribute_single_target :
  forall (bal : Balances) (cfg : Config) (sends : list CosmosMsg) (d : Denom)
         (addr : Addr) (w : Z),
  cfg.(target_addresses) = [(addr, w)] ->
  is_u8 w ->
  bal d <> 0 ->
  distribute_denom bal cfg sends d = Ok (sends ++ [denom_send d addr (bal d)]).
Proof.
  intros bal cfg sends d addr w Htargets Hw Hb.
  unfold distribute_denom, is_u8, U8_MAX in *. rewrite Htargets. simpl.
  unfold u8_add, U8_MAX. rewrite Z.add_0_r.
  replace (w <=? 255) with true by (symmetry; apply Z.leb_le; lia). simpl.
  apply Z.eqb_neq in Hb. rewrite Hb. simpl.
  unfold uint128_sub. rewrite Z.leb_refl. reflexivity.
Qed.

Lemma distribute_single_target_witness :
  distribute_denom (fun _ => 1000) (mkConfig "owner" "executor" ["x"] [("fee", 0)]) [] "x"
  = Ok [denom_send "x" "fee" 1000].
Proof.
  apply (distribute_single_target (fun _ => 1000)
           (mkConfig "owner" "executor" ["x"] [("fee", 0)]) [] "x" "fee" 0).
  - reflexivity.
  - unfold is_u8, U8_MAX; lia.
  - discriminate.
Defined.

(** C1 (failing input): the weights [200] and [100] are valid [u8] weights
    with a positive total, but the total is accumulated in a [u8]: the fold
    overflows and the distribution panics instead of conserving the balance. *)
Lemma distribute_weight_overflow :
  distribute_denom (fun _ => 1000)
    (mkConfig "owner" "executor" ["x"] [("a", 200); ("b", 100)]) [] "x"
  = Abort "attempt to add with overflow".
Proof. reflexivity. Qed.

(** ** Authorization *)

(** C7: an owner-gated message from anyone but the owner, or [Run] from
    anyone but the executor, fails with [Unauthorized] and leaves the whole
    storage (config, ledger and cursor) as it was. *)
Theorem execute_unauthorized :
  forall (bal : Balances) (sender : Addr) (m : ExecuteMsg) (st : Storage),
  (owner_gated m = true /\ sender <> st.(CONFIG).(owner)) \/
  (m = Run /\ sender <> st.(CONFIG).(executor)) ->
  execute bal sender m st = (Err Unauthorized, st).
Proof.
  intros bal sender m st [[Hg Hs] | [-> Hs]];
    [destruct m; try discriminate Hg | ];
    unfold execute, bindM, config_load; simpl;
    apply String.eqb_neq in Hs; rewrite Hs; reflexivity.
Qed.

Lemma execute_unauthorized_witness :
  execute scenario_balances "mallory" Run (mkStorage scenario_config None ledger_abc)
  = (Err Unauthorized, mkStorage scenario_config None ledger_abc).
Proof.
  apply execute_unauthorized. right. split; [reflexivity | discriminate].
Defined.

(** ** Completion callback *)

Lemma distribute_loop_bank :
  forall ts d b T r sends out,
  distribute_loop d b T r ts sends = Ok out ->
  Forall is_bank sends -> Forall is_bank out.
Proof.
  induction ts as [| [addr w] ts IH]; intros d b T r sends out H Hs; simpl in H.
  - inversion H; subst; exact Hs.
  - destruct (match ts with
              | [] => Ok r
              | _ :: _ => let* ratio := decimal_from_ratio w T in
                          uint128_mul_floor b ratio
              end) as [amt | e | p]; simpl in H; try discriminate.
    destruct (amt =? 0); [eapply IH; eauto |].
    destruct (uint128_sub r amt) as [r' | e | p]; simpl in H; try discriminate.
    eapply IH; [exact H |].
    apply Forall_app; split; [exact Hs |].
    constructor; [| constructor]. unfold denom_send. eexists; eexists; reflexivity.
Qed.

Lemma distribute_denom_bank :
  forall bal cfg sends d out,
  distribute_denom bal cfg sends d = Ok out ->
  Forall is_bank sends -> Forall is_bank out.
Proof.
  intros bal cfg sends d out H Hs. unfold distribute_denom in H.
  destruct (fold_weights 0 (target_addresses cfg)) as [T | e | p]; simpl in H;
    try discriminate.
  destruct (negb _).
  - eapply distribute_loop_bank; eauto.
  - inversion H; subst; exact Hs.
Qed.

(** C9: the [reply] entry point answers with [execute_reply] and leaves the
    storage (config, ledger, cursor) untouched; when [Run] by the executor
    takes the sweep branch (no Action message), its answer is exactly the
    one of [execute_reply] on the same storage and balances; and a successful
    [execute_reply] only carries bank transfers: it selects, executes and
    re-attempts no Action. *)
Theorem reply_matches_sweep : forall (bal : Balances) (st : Storage),
  reply bal st = (execute_reply st bal, st) /\
  (forall st', get_action_msg bal st = (Ok None, st') ->
     fst (execute bal st.(CONFIG).(executor) Run st) = execute_reply st bal) /\
  (forall r, execute_reply st bal = Ok r -> only_transfers r).
Proof.
  intros bal st. split; [reflexivity | split].
  - intros st' H.
    unfold execute, bindM, config_load. simpl. rewrite String.eqb_refl. simpl.
    rewrite H. unfold lift, execute_reply. simpl.
    destruct ((fix go (ts : list Denom) (sends : list CosmosMsg) :=
                 match ts with
                 | [] => Ok sends
                 | target :: rest =>
                     let* sends' := distribute_denom bal (CONFIG st) sends target in
                     go rest sends'
                 end) (target_denoms (CONFIG st)) []); reflexivity.
  - intros r H.
    assert (Hnil : Forall is_bank (@nil CosmosMsg)) by constructor.
    unfold execute_reply in H.
    revert H Hnil. generalize (@nil CosmosMsg) as sends.
    generalize (target_denoms (CONFIG st)) as ts.
    induction ts as [| t ts IH]; intros sends H Hs; simpl in H.
    + inversion H; subst. split; [reflexivity |]. simpl.
      induction Hs as [| m ms [to [c Hm]] _ IHs]; simpl; constructor; auto.
      split; [reflexivity | exists to, c; now rewrite Hm].
    + destruct (distribute_denom bal (CONFIG st) sends t) as [s' | e | p] eqn:E;
        simpl in H; try discriminate.
      eapply IH; [exact H |]. eapply distribute_denom_bank; eauto.
Qed.

Lemma reply_matches_sweep_witness :
  get_action_msg scenario_balances (mkStorage scenario_config None [])
    = (Ok None, mkStorage scenario_config None []) /\
  fst (execute scenario_balances "executor" Run (mkStorage scenario_config None []))
    = execute_reply (mkStorage scenario_config None []) scenario_balances.
Proof.
  split; [reflexivity |].
  apply (proj1 (proj2 (reply_matches_sweep scenario_balances
                          (mkStorage scenario_config None []))) 
           (mkStorage scenario_config None [])).
  reflexivity.
Defined.

(** ** The cranking scenario *)

(** C6 (counterexample): with the ledger {A, B, C} of the scenario, the fourth
    crank does not select D (which has no Action): the cursor wraps to A. *)
Lemma scenario_abc_fourth_crank :
  snd (nth 3 (crank_trace scenario_balances 6
                (mkStorage scenario_config None ledger_abc)) (Abort "", None))
    = Some "token-a" /\
  snd (nth 3 (crank_trace scenario_balances 6
                (mkStorage scenario_config None ledger_abc)) (Abort "", None))
    <> Some "token-d".
Proof. vm_compute. split; [reflexivity | discriminate]. Qed.

(** C6 (as amended): with the ledger {A, B, C:100, D, E} (A, B, D, E
    unbounded), balances A=0 and B=C=D=E=1000, no cursor and the
    single-shot policy, the six cranks select A (inert: no event, no
    message, cursor on A), B (1000), C (capped at 100), D (1000), E (1000),
    and wrap to A again. *)
Theorem scenario_abcde_cranks :
  crank_trace scenario_balances 6 (mkStorage scenario_config None ledger_abcde) =
  [(Ok response_default, Some "token-a");
   (Ok (run_response "token-b" "contract-b" 1000), Some "token-b");
   (Ok (run_response "token-c" "contract-c" 100), Some "token-c");
   (Ok (run_response "token-d" "contract-d" 1000), Some "token-d");
   (Ok (run_response "token-e" "contract-e" 1000), Some "token-e");
   (Ok response_default, Some "token-a")].
Proof. vm_compute. reflexivity. Qed.

(** ** Remainder placement and conservation *)

Lemma sum_weights_nonneg : forall ts,
  Forall (fun t => 0 <= snd t) ts -> 0 <= sum_weights ts.
Proof.
  induction ts as [| [a w] ts IH]; intros H; simpl; [lia |].
  inversion H; subst. specialize (IH ltac:(assumption)). simpl in *. lia.
Qed.

Lemma sum_weights_app : forall ts us,
  sum_weights (ts ++ us) = sum_weights ts + sum_weights us.
Proof. induction ts as [| [a w] ts IH]; intros us; simpl; [| rewrite IH]; lia. Qed.

Lemma sum_weights_member : forall ts a w,
  Forall (fun t => 0 <= snd t) ts -> In (a, w) ts -> w <= sum_weights ts.
Proof.
  induction ts as [| [x v] ts IH]; intros a w H Hin; [destruct Hin |].
  inversion H as [| ? ? Hv Hrest]; subst. simpl in *.
  pose proof (sum_weights_nonneg ts Hrest).
  destruct Hin as [Heq | Hin]; [inversion Heq; subst; lia |].
  specialize (IH a w Hrest Hin). lia.
Qed.

Lemma fold_weights_ok : forall ts a,
  0 <= a -> Forall (fun t => 0 <= snd t) ts -> a + sum_weights ts <= U8_MAX ->
  fold_weights a ts = Ok (a + sum_weights ts).
Proof.
  induction ts as [| [x w] ts IH]; intros a Ha Hts Hsum; simpl in *.
  - now rewrite Z.add_0_r.
  - inversion Hts as [| ? ? Hw Hrest]; subst. simpl in Hw.
    pose proof (sum_weights_nonneg ts Hrest).
    unfold u8_add. unfold U8_MAX in *.
    replace (w + a <=? 255) with true by (symmetry; apply Z.leb_le; lia). simpl.
    rewrite IH; [f_equal; lia | lia | assumption | lia].
Qed.

Section Shares.
  Variables (b w total : Z).
  Hypothesis Htotal : 0 < total.
  Hypothesis Hw : 0 <= w <= total.
  Hypothesis Hb : 0 <= b <= UINT128_MAX.

Lemma F_pos : 0 < DECIMAL_FRACTIONAL.
  Proof. unfold DECIMAL_FRACTIONAL. lia. Qed.

Lemma ratio_bounds : 0 <= w * DECIMAL_FRACTIONAL / total <= DECIMAL_FRACTIONAL.
  Proof.
    pose proof F_pos. split.
    - apply Z.div_pos; nia.
    - apply Z.div_le_upper_bound; nia.
  Qed.

Lemma decimal_from_ratio_ok : decimal_from_ratio w total = Ok (w * DECIMAL_FRACTIONAL / total).
  Proof.
    pose proof ratio_bounds. unfold decimal_from_ratio.
    replace (total =? 0) with false by (symmetry; apply Z.eqb_neq; lia).
    replace (w * DECIMAL_FRACTIONAL / total <=? UINT128_MAX) with true; [reflexivity |].
    symmetry; apply Z.leb_le. unfold DECIMAL_FRACTIONAL, UINT128_MAX in *. lia.
  Qed.

Lemma decimal_share_bounds : 0 <= decimal_share b w total <= b.
  Proof.
    pose proof F_pos. pose proof ratio_bounds. unfold decimal_share.
    split.
    - apply Z.div_pos; nia.
    - apply Z.div_le_upper_bound; nia.
  Qed.

Lemma mul_floor_ok :
    uint128_mul_floor b (w * DECIMAL_FRACTIONAL / total) = Ok (decimal_share b w total).
  Proof.
    pose proof decimal_share_bounds. unfold uint128_mul_floor.
    unfold decimal_share in *.
    replace (b * (w * DECIMAL_FRACTIONAL / total) / DECIMAL_FRACTIONAL <=? UINT128_MAX) with true;
      [reflexivity |].
    symmetry; apply Z.leb_le. lia.
  Qed.

  (** The fixed-point share never exceeds the exact one. *)
Lemma decimal_share_le_exact : total * decimal_share b w total <= b * w.
  Proof.
    pose proof F_pos. pose proof ratio_bounds.
    unfold decimal_share.
    set (q := w * DECIMAL_FRACTIONAL / total). set (s := b * q / DECIMAL_FRACTIONAL).
    assert (H1 : DECIMAL_FRACTIONAL * s <= b * q) by (apply Z.mul_div_le; lia).
    assert (H2 : total * q <= w * DECIMAL_FRACTIONAL) by (apply Z.mul_div_le; lia).
    assert (H3 : DECIMAL_FRACTIONAL * (total * s) <= DECIMAL_FRACTIONAL * (b * w)) by nia.
    apply Z.mul_le_mono_pos_l in H3; lia.
  Qed.
End Shares.

Lemma sum_shares_nonneg : forall b total ts,
  0 < total -> 0 <= b <= UINT128_MAX ->
  Forall (fun t => 0 <= snd t <= total) ts -> 0 <= sum_shares b total ts.
Proof.
  intros b total ts Ht Hb. induction ts as [| [a w] ts IH]; intros H; simpl; [lia |].
  inversion H; subst. pose proof (decimal_share_bounds b w total Ht ltac:(assumption) Hb).
  specialize (IH ltac:(assumption)). lia.
Qed.

Lemma sum_shares_le_exact : forall b total ts,
  0 < total -> 0 <= b <= UINT128_MAX ->
  Forall (fun t => 0 <= snd t <= total) ts ->
  total * sum_shares b total ts <= b * sum_weights ts.
Proof.
  intros b total ts Ht Hb. induction ts as [| [a w] ts IH]; intros H; simpl; [lia |].
  inversion H; subst. pose proof (decimal_share_le_exact b w total Ht ltac:(assumption)).
  specialize (IH ltac:(assumption)). nia.
Qed.

Lemma distribute_loop_cons : forall d b total r a w rest sends,
  rest <> [] ->
  distribute_loop d b total r ((a, w) :: rest) sends =
  let* amount := (let* ratio := decimal_from_ratio w total in
                  uint128_mul_floor b ratio) in
  if amount =? 0 then distribute_loop d b total r rest sends
  else
    let* r' := uint128_sub r amount in
    distribute_loop d b total r' rest (sends ++ [denom_send d a amount]).
Proof. intros d b total r a w [| x rest] sends H; [congruence | reflexivity]. Qed.

(** The loop over [pre ++ [last]]: each target of [pre] gets its
    [decimal_share], the last one what remains. *)
Lemma distribute_loop_split : forall pre d b total r sends al wl,
  0 < total -> 0 <= b <= UINT128_MAX ->
  Forall (fun t => 0 <= snd t <= total) pre ->
  sum_shares b total pre <= r <= UINT128_MAX ->
  distribute_loop d b total r (pre ++ [(al, wl)]) sends =
  Ok (sends ++ share_sends d b total pre ++ last_send d al (r - sum_shares b total pre)).
Proof.
  induction pre as [| [a w] pre IH]; intros d b total r sends al wl Ht Hb Hpre Hr.
  - simpl in *. rewrite Z.sub_0_r. unfold last_send.
    destruct (r =? 0) eqn:Hz.
    + now rewrite app_nil_r.
    + unfold uint128_sub. rewrite Z.leb_refl. reflexivity.
  - inversion Hpre as [| ? ? Hw Hrest]; subst. simpl in Hw.
    pose proof (sum_shares_nonneg b total pre Ht Hb Hrest).
    pose proof (decimal_share_bounds b w total Ht Hw Hb).
    simpl app. rewrite distribute_loop_cons by (destruct pre; discriminate).
    rewrite (decimal_from_ratio_ok w total Ht Hw). simpl bind_result.
    rewrite (mul_floor_ok b w total Ht Hw Hb). simpl bind_result.
    simpl in Hr. simpl share_sends. simpl sum_shares.
    destruct (decimal_share b w total =? 0) eqn:Hz.
    + apply Z.eqb_eq in Hz. rewrite IH by (auto; lia).
      rewrite Hz, Z.add_0_l. reflexivity.
    + unfold uint128_sub.
      replace (decimal_share b w total <=? r) with true
        by (symmetry; apply Z.leb_le; lia). simpl bind_result.
      rewrite IH by (auto; lia).
      rewrite <- !app_assoc.
      replace (r - decimal_share b w total - sum_shares b total pre)
        with (r - (decimal_share b w total + sum_shares b total pre)) by lia.
      reflexivity.
Qed.

(** The distribution in closed form. *)
Lemma distribute_denom_closed_form :
  forall (bal : Balances) (cfg : Config) (d : Denom)
         (pre : list (Addr * Z)) (al : Addr) (wl : Z),
  cfg.(target_addresses) = pre ++ [(al, wl)] ->
  Forall (fun t => is_u8 (snd t)) (pre ++ [(al, wl)]) ->
  0 < sum_weights (pre ++ [(al, wl)]) <= U8_MAX ->
  0 < bal d <= UINT128_MAX ->
  let T := sum_weights (pre ++ [(al, wl)]) in
  let b := bal d in
  distribute_denom bal cfg [] d =
    Ok (share_sends d b T pre ++ last_send d al (b - sum_shares b T pre)) /\
  (forall a w, In (a, w) pre -> decimal_share b w T <= b * w / T) /\
  b * wl / T <= b - sum_shares b T pre.
Proof.
  intros bal cfg d pre al wl Htargets Hu8 HT Hb T b.
  assert (Hnn : Forall (fun t => 0 <= snd t) (pre ++ [(al, wl)])).
  { eapply Forall_impl; [| exact Hu8]. intros t Ht. unfold is_u8 in Ht. lia. }
  assert (Hnnp : Forall (fun t => 0 <= snd t) pre)
    by (apply Forall_app in Hnn; tauto).
  assert (Hsplit : T = sum_weights pre + wl)
    by (unfold T; rewrite sum_weights_app; simpl; lia).
  assert (Hwl : 0 <= wl)
    by (apply Forall_app in Hnn as [_ Hl]; inversion Hl; subst; simpl in *; lia).
  assert (Hpw : 0 <= sum_weights pre) by (apply sum_weights_nonneg; exact Hnnp).
  assert (Hpre : Forall (fun t => 0 <= snd t <= T) pre).
  { rewrite Forall_forall. intros [a w] Hin. simpl.
    pose proof (sum_weights_member pre a w Hnnp Hin).
    rewrite Forall_forall in Hnnp. specialize (Hnnp _ Hin). simpl in Hnnp. lia. }
  assert (Hb' : 0 <= b <= UINT128_MAX) by (unfold b; lia).
  assert (HT0 : 0 < T) by (unfold T; lia).
  pose proof (sum_shares_le_exact b T pre HT0 Hb' Hpre) as Hle.
  pose proof (sum_shares_nonneg b T pre HT0 Hb' Hpre).
  split; [| split].
  - unfold distribute_denom. simpl. rewrite Htargets.
    rewrite fold_weights_ok by (auto; unfold U8_MAX in *; lia). simpl.
    replace (negb (bal d =? 0)) with true
      by (symmetry; apply negb_true_iff, Z.eqb_neq; lia).
    change (bal d) with b. change (sum_weights (pre ++ [(al, wl)])) with T.
    rewrite distribute_loop_split; auto.
    split; [| lia].
    assert (T * sum_shares b T pre <= T * b) by nia.
    apply Z.mul_le_mono_pos_l in H0; lia.
  - intros a w Hin.
    rewrite Forall_forall in Hpre. specialize (Hpre _ Hin). simpl in Hpre.
    pose proof (decimal_share_le_exact b w T HT0 Hpre).
    apply Z.div_le_lower_bound; lia.
  - pose proof (Z.mul_div_le (b * wl) T HT0).
    nia.
Qed.

(** C2 (as amended): for a non-zero balance [b] and targets
    [pre ++ [(al, wl)]] whose [u8] weights total [T] with [0 < T <= 255], the
    distribution sends each target of [pre], in order, its fixed-point share
    [floor(b * floor(w * 10^18 / T) / 10^18)] (skipped when zero), which is at
    most the exact floor share [floor(b * w / T)]; and sends the last target
    [b] minus the sum of those shares (skipped when zero), which is at least
    its own floor share [floor(b * wl / T)]. *)
Theorem distribute_remainder_last :
  forall (bal : Balances) (cfg : Config) (d : Denom)
         (pre : list (Addr * Z)) (al : Addr) (wl : Z),
  cfg.(target_addresses) = pre ++ [(al, wl)] ->
  pre <> [] ->
  Forall (fun t => is_u8 (snd t)) (pre ++ [(al, wl)]) ->
  0 < sum_weights (pre ++ [(al, wl)]) <= U8_MAX ->
  0 < bal d <= UINT128_MAX ->
  let T := sum_weights (pre ++ [(al, wl)]) in
  let b := bal d in
  distribute_denom bal cfg [] d =
    Ok (share_sends d b T pre ++ last_send d al (b - sum_shares b T pre)) /\
  (forall a w, In (a, w) pre -> decimal_share b w T <= b * w / T) /\
  b * wl / T <= b - sum_shares b T pre.
Proof.
  intros bal cfg d pre al wl Htargets _.
  exact (distribute_denom_closed_form bal cfg d pre al wl Htargets).
Qed.

Lemma distribute_remainder_last_witness :
  distribute_denom (fun _ => 1000)
    (mkConfig "owner" "executor" ["ukuji"] [("fee", 1); ("another", 3)]) [] "ukuji" =
  Ok (share_sends "ukuji" 1000 4 [("fee", 1)] ++
      last_send "ukuji" "another" (1000 - sum_shares 1000 4 [("fee", 1)])).
Proof.
  pose proof (distribute_remainder_last (fun _ => 1000)
    (mkConfig "owner" "executor" ["ukuji"] [("fee", 1); ("another", 3)]) "ukuji"
    [("fee", 1)] "another" 3 eq_refl ltac:(discriminate)
    ltac:(repeat constructor; unfold is_u8, U8_MAX; simpl; lia)
    ltac:(simpl; unfold U8_MAX; lia)
    ltac:(unfold UINT128_MAX; lia)) as H.
  cbv zeta in H. exact (proj1 H).
Defined.

(** C2 (counterexample): with balance 3 and weights [1; 2], the exact floor
    share of the first target is [floor(3 * 1 / 3) = 1], but its
    [Decimal] ratio is [0.333333333333333333] and it is assigned
    [floor(3 * 0.333333333333333333) = 0]: nothing is sent to it, and the
    last target receives all 3. *)
Lemma distribute_decimal_rounding :
  distribute_denom (fun _ => 3)
    (mkConfig "owner" "executor" ["x"] [("a", 1); ("b", 2)]) [] "x"
    = Ok [denom_send "x" "b" 3] /\
  3 * 1 / 3 = 1 /\
  ~ In (denom_send "x" "a" (3 * 1 / 3)) [denom_send "x" "b" 3].
Proof.
  split; [reflexivity | split; [reflexivity |]].
  simpl. intros [H | []]. discriminate H.
Qed.

Lemma sent_total_app : forall xs ys,
  sent_total (xs ++ ys) = sent_total xs + sent_total ys.
Proof.
  induction xs as [| m xs IH]; intros ys; simpl; [reflexivity |].
  rewrite IH. destruct m; lia.
Qed.

Lemma sent_total_share_sends : forall d b total ts,
  sent_total (share_sends d b total ts) = sum_shares b total ts.
Proof.
  induction ts as [| [a w] ts IH]; simpl; [reflexivity |].
  rewrite sent_total_app, IH.
  destruct (decimal_share b w total =? 0) eqn:Hz; simpl.
  - apply Z.eqb_eq in Hz. lia.
  - lia.
Qed.

Lemma sent_total_last_send : forall d a x, sent_total (last_send d a x) = x.
Proof.
  intros d a x. unfold last_send. destruct (x =? 0) eqn:Hz; simpl.
  - apply Z.eqb_eq in Hz. lia.
  - lia.
Qed.

(** Conservation when the weights fit the [u8] accumulator: for a non-zero
    balance and a non-empty target list whose weights total at most 255
    (and more than 0), the transfers add up to the balance. *)
Lemma distribute_conserves :
  forall (bal : Balances) (cfg : Config) (d : Denom),
  cfg.(target_addresses) <> [] ->
  Forall (fun t => is_u8 (snd t)) cfg.(target_addresses) ->
  0 < sum_weights cfg.(target_addresses) <= U8_MAX ->
  0 < bal d <= UINT128_MAX ->
  exists out, distribute_denom bal cfg [] d = Ok out /\ sent_total out = bal d.
Proof.
  intros bal cfg d Hne Hu8 HT Hb.
  destruct (exists_last Hne) as [pre [[al wl] Heq]].
  rewrite Heq in Hu8, HT.
  pose proof (distribute_denom_closed_form bal cfg d pre al wl Heq Hu8 HT Hb) as H.
  cbv zeta in H. destruct H as [H _].
  eexists; split; [exact H |].
  rewrite sent_total_app, sent_total_share_sends, sent_total_last_send. lia.
Qed.

(** ** Key order *)

Lemma str_compare_refl : forall s, String.compare s s = Eq.
Proof.
  induction s as [| c s IH]; simpl; [reflexivity |].
  unfold Ascii.compare. now rewrite N.compare_refl.
Qed.

Lemma str_ltb_irrefl : forall s, str_ltb s s = false.
Proof. intros s. unfold str_ltb. now rewrite str_compare_refl. Qed.

Lemma str_ltb_asym : forall a b, str_ltb a b = true -> str_ltb b a = false.
Proof.
  intros a b H. unfold str_ltb in *. rewrite String.compare_antisym.
  destruct (String.compare a b); simpl; congruence.
Qed.

Lemma str_ltb_trans : forall a b c,
  str_ltb a b = true -> str_ltb b c = true -> str_ltb a c = true.
Proof.
  unfold str_ltb.
  induction a as [| x a IH]; intros [| y b] [| z c] Hab Hbc; simpl in *;
    try discriminate; try reflexivity.
  unfold Ascii.compare in *.
  destruct (N.compare_spec (N_of_ascii x) (N_of_ascii y)) as [Hxy | Hxy | Hxy];
    try discriminate;
  destruct (N.compare_spec (N_of_ascii y) (N_of_ascii z)) as [Hyz | Hyz | Hyz];
    try discriminate.
  - rewrite Hxy, Hyz, N.compare_refl. exact (IH b c Hab Hbc).
  - rewrite Hxy. apply N.compare_lt_iff in Hyz. now rewrite Hyz.
  - rewrite <- Hyz. apply N.compare_lt_iff in Hxy. now rewrite Hxy.
  - assert (Hxz : (N_of_ascii x < N_of_ascii z)%N) by (eapply N.lt_trans; eauto).
    apply N.compare_lt_iff in Hxz. now rewrite Hxz.
Qed.

(** ** Action::next *)

Lemma StronglySorted_filter : forall {A} (R : A -> A -> Prop) f l,
  StronglySorted R l -> StronglySorted R (filter f l).
Proof.
  intros A R f l H. induction H as [| x l Hl IH Hx]; simpl; [constructor |].
  destruct (f x); [| exact IH].
  constructor; [exact IH |].
  rewrite Forall_forall in *. intros y Hy. apply filter_In in Hy. apply Hx; tauto.
Qed.

Lemma sorted_head_least : forall k e r,
  keys_sorted ((k, e) :: r) -> least_key_above None ((k, e) :: r) k.
Proof.
  intros k e r H. apply StronglySorted_inv in H as [_ Hr].
  split; [left; reflexivity | split; [reflexivity |]].
  intros j [Hj | Hj] _; [left; now symmetry | right].
  apply in_map_iff in Hj as [[j' e'] [Heq Hin]]. simpl in Heq; subst j'.
  rewrite Forall_forall in Hr. exact (Hr _ Hin).
Qed.

Lemma action_load_spec : forall st k c l m,
  action_load st (k, (c, l, m)) = (mkAction k c l m, save_last st k).
Proof. reflexivity. Qed.

(** C3: for a ledger with ascending keys (the storage invariant) and any
    cursor, [Action::next] follows the selection rule: the smallest key above
    the cursor, else the smallest key of the ledger; it saves the selected
    key as the cursor and returns the Action stored there; on an empty
    ledger it returns nothing and leaves the cursor as it was. *)
Theorem action_next_selection : forall st : Storage,
  keys_sorted st.(ACTIONS) -> next_spec st (action_next st).
Proof.
  intros [cfg last m] Hs. simpl in Hs. unfold action_next, next_spec. simpl.
  destruct last as [k0 |].
  - simpl.
    destruct (filter (fun e : string * ActionEntry => str_ltb k0 (fst e)) m) as [| [k [[c l] msg]] r] eqn:Hf;
      simpl.
    + destruct m as [| [k1 [[c1 l1] msg1]] r1]; simpl; [split; reflexivity |].
      exists c1, l1, msg1. split; [left; reflexivity | split; [reflexivity |]].
      split; [reflexivity |]. right. split.
      * intros j Hj. simpl.
        assert (Hj' : exists x, fst x = j /\ In x ((k1, (c1, l1, msg1)) :: r1))
          by (apply in_map_iff; exact Hj).
        destruct Hj' as [x [Hx Hin]]. subst j.
        destruct (str_ltb k0 (fst x)) eqn:Hlt; [| reflexivity].
        assert (Hnil : In x (@nil (string * ActionEntry)))
          by (rewrite <- Hf; apply filter_In; split; assumption).
        destruct Hnil.
      * now apply sorted_head_least.
    + assert (Hin : In (k, (c, l, msg)) m).
      { assert (H : In (k, (c, l, msg)) (filter (fun e : string * ActionEntry => str_ltb k0 (fst e)) m))
          by (rewrite Hf; left; reflexivity).
        apply filter_In in H. tauto. }
      exists c, l, msg. split; [exact Hin | split; [reflexivity | split; [reflexivity |]]].
      left. split; [apply in_map_iff; exists (k, (c, l, msg)); split; auto |].
      assert (Hk : str_ltb k0 k = true).
      { assert (H : In (k, (c, l, msg)) (filter (fun e : string * ActionEntry => str_ltb k0 (fst e)) m))
          by (rewrite Hf; left; reflexivity).
        apply filter_In in H. tauto. }
      split; [exact Hk |].
      intros j Hj Habove. simpl in Habove.
      apply in_map_iff in Hj as [x [Hx Hinx]]. subst j.
      assert (Hxf : In x (filter (fun e : string * ActionEntry => str_ltb k0 (fst e)) m))
        by (apply filter_In; split; assumption).
      rewrite Hf in Hxf.
      pose proof (StronglySorted_filter _ (fun e : string * ActionEntry => str_ltb k0 (fst e)) m Hs) as Hsf.
      rewrite Hf in Hsf. apply StronglySorted_inv in Hsf as [_ Hr].
      destruct Hxf as [Hx | Hx]; [left; now subst x |].
      right. rewrite Forall_forall in Hr. exact (Hr _ Hx).
  - simpl. destruct m as [| [k [[c l] msg]] r]; simpl; [split; reflexivity |].
    exists c, l, msg. split; [left; reflexivity | split; [reflexivity |]].
    split; [reflexivity |]. left. now apply sorted_head_least.
Qed.

Lemma action_next_selection_witness :
  keys_sorted ledger_abc /\
  next_spec (mkStorage scenario_config (Some "token-a") ledger_abc)
            (action_next (mkStorage scenario_config (Some "token-a") ledger_abc)).
Proof.
  assert (H : keys_sorted ledger_abc).
  { unfold keys_sorted, ledger_abc. repeat constructor. }
  split; [exact H |].
  apply action_next_selection. exact H.
Defined.

(** ** Round-robin fairness *)

Section RoundRobin.
Local Open Scope nat_scope.

Lemma filter_all_true : forall {A} (f : A -> bool) l,
  Forall (fun x => f x = true) l -> filter f l = l.
Proof.
  intros A f l H. induction H as [| x l Hx _ IH]; simpl; [reflexivity |].
  now rewrite Hx, IH.
Qed.

Lemma hd_error_skipn : forall {A} (l : list A) n, hd_error (skipn n l) = nth_error l n.
Proof. intros A l. induction l as [| x l IH]; intros [| n]; simpl; auto. Qed.

Lemma nth_error_map_fst : forall (l : ActionMap) n x,
  nth_error l n = Some x -> nth n (map fst l) ""%string = fst x.
Proof.
  induction l as [| y l IH]; intros [| n] x H; simpl in H; try discriminate.
  - inversion H; reflexivity.
  - simpl. exact (IH n x H).
Qed.

Lemma keys_sorted_NoDup : forall m, keys_sorted m -> NoDup (map fst m).
Proof.
  intros m H. induction H as [| [k e] r Hr IH Hk]; simpl; constructor; auto.
  intros Hin. apply in_map_iff in Hin as [[k' e'] [Heq Hin]]. simpl in Heq. subst k'.
  rewrite Forall_forall in Hk. specialize (Hk _ Hin). simpl in Hk.
  now rewrite str_ltb_irrefl in Hk.
Qed.

(** Above the [i]-th key, the range is the suffix after position [i]. *)
Lemma range_after_nth : forall m i,
  keys_sorted m -> i < List.length m ->
  filter (fun e : string * ActionEntry => str_ltb (nth i (map fst m) ""%string) (fst e)) m
  = skipn (S i) m.
Proof.
  induction m as [| [k e] r IH]; intros i Hs Hi; simpl in Hi; [lia |].
  apply StronglySorted_inv in Hs as [Hr Hk].
  destruct i as [| i].
  - simpl. rewrite str_ltb_irrefl. apply filter_all_true.
    eapply Forall_impl; [| exact Hk]. intros [k' e'] H. exact H.
  - simpl.
    assert (Hin : In (nth i (map fst r) ""%string) (map fst r))
      by (apply nth_In; rewrite length_map; lia).
    apply in_map_iff in Hin as [[k' e'] [Heq Hin']]. simpl in Heq.
    rewrite Forall_forall in Hk. specialize (Hk _ Hin'). simpl in Hk.
    rewrite <- Heq, (str_ltb_asym _ _ Hk). rewrite Heq.
    apply IH; [exact Hr | lia].
Qed.

(** From the cursor on the [i]-th key, [next] selects the key at
    [(i + 1) mod K]. *)
Lemma next_after_key : forall cfg m i,
  keys_sorted m -> i < List.length m ->
  exists a,
    action_next (mkStorage cfg (Some (nth i (map fst m) ""%string)) m)
      = (Some a, mkStorage cfg (Some (denom a)) m) /\
    denom a = nth (S i mod List.length m) (map fst m) ""%string.
Proof.
  intros cfg m i Hs Hi. unfold action_next. simpl.
  rewrite range_after_nth by assumption. rewrite hd_error_skipn.
  destruct (Nat.lt_ge_cases (S i) (List.length m)) as [Hlt | Hge].
  - destruct (nth_error m (S i)) as [[k [[c l] msg]] |] eqn:Hn.
    + exists (mkAction k c l msg). split; [reflexivity |]. simpl.
      rewrite Nat.mod_small by exact Hlt.
      symmetry. exact (nth_error_map_fst m (S i) _ Hn).
    + apply nth_error_None in Hn. lia.
  - replace (nth_error m (S i)) with (@None (string * ActionEntry))
      by (symmetry; apply nth_error_None; exact Hge).
    destruct m as [| [k [[c l] msg]] r]; simpl in Hi, Hge; [lia |].
    exists (mkAction k c l msg). split; [reflexivity |].
    replace (S i) with (List.length ((k, (c, l, msg)) :: r : ActionMap)) by (simpl; lia).
    rewrite Nat.Div0.mod_same. reflexivity.
Qed.

Lemma hd_error_In : forall {A} (l : list A) x, hd_error l = Some x -> In x l.
Proof. intros A [| y l] x H; simpl in H; [discriminate | inversion H; left; reflexivity]. Qed.

(** On a non-empty ledger, [next] always selects one of its keys. *)
Lemma action_next_nonempty : forall cfg last m,
  m <> [] ->
  exists a,
    action_next (mkStorage cfg last m) = (Some a, mkStorage cfg (Some (denom a)) m) /\
    In (denom a) (map fst m).
Proof.
  intros cfg last m Hne. unfold action_next. simpl.
  destruct (hd_error (range last m)) as [[k [[c l] msg]] |] eqn:Hh.
  - exists (mkAction k c l msg). split; [reflexivity |]. simpl.
    apply hd_error_In in Hh.
    assert (Hin : In (k, (c, l, msg)) m).
    { destruct last; simpl in Hh; [apply filter_In in Hh; tauto | exact Hh]. }
    apply (in_map fst) in Hin. exact Hin.
  - destruct m as [| [k [[c l] msg]] r]; [contradiction |].
    exists (mkAction k c l msg). split; [reflexivity | left; reflexivity].
Qed.

Lemma trace_from_key : forall n cfg m i,
  keys_sorted m -> i < List.length m ->
  next_trace n (mkStorage cfg (Some (nth i (map fst m) ""%string)) m) =
  map (fun j => Some (nth ((S i + j) mod List.length m) (map fst m) ""%string)) (seq 0 n).
Proof.
  induction n as [| n IH]; intros cfg m i Hs Hi; [reflexivity |].
  destruct (next_after_key cfg m i Hs Hi) as [a [Ha Hd]].
  simpl. rewrite Ha. simpl.
  assert (HK : List.length m <> 0) by lia.
  assert (Hi' : S i mod List.length m < List.length m) by (apply Nat.mod_upper_bound; exact HK).
  rewrite Hd, Nat.add_0_r. f_equal.
  etransitivity; [exact (IH cfg m (S i mod List.length m) Hs Hi') |].
  rewrite <- seq_shift, map_map. apply map_ext. intros j. do 2 f_equal.
  replace (S (S i mod List.length m) + j) with (S i mod List.length m + S j) by lia.
  rewrite Nat.Div0.add_mod_idemp_l; f_equal; lia.
Qed.

(** The sequence of selections: an ascending cyclic walk over the keys. *)
Lemma trace_shape : forall n cfg last m,
  keys_sorted m -> m <> [] ->
  exists s, s < List.length (map fst m) /\
    next_trace n (mkStorage cfg last m) =
    map (fun j => Some (nth ((s + j) mod List.length (map fst m)) (map fst m) ""%string))
        (seq 0 n).
Proof.
  intros [| n] cfg last m Hs Hne.
  - exists 0. split; [| reflexivity].
    destruct m; [contradiction | simpl; lia].
  - rewrite length_map.
    destruct (action_next_nonempty cfg last m Hne) as [a [Ha Hin]].
    destruct (In_nth (map fst m) (denom a) ""%string Hin) as [s [Hs' Hnth]].
    rewrite length_map in Hs'.
    exists s. split; [exact Hs' |].
    simpl. rewrite Ha. simpl. rewrite <- Hnth.
    rewrite Nat.add_0_r, Nat.mod_small by exact Hs'. f_equal.
    etransitivity; [exact (trace_from_key n cfg m s Hs Hs') |].
    rewrite <- seq_shift, map_map. apply map_ext. intros j. do 2 f_equal. f_equal. lia.
Qed.

Section Residues.
  Variables K s i : nat.
  Hypothesis HK : 0 < K.
  Hypothesis Hs : s < K.
  Hypothesis Hi : i < K.

Lemma residue_hits_shift : forall n a,
    residue_hits K s i (seq (a + K) n) = residue_hits K s i (seq a n).
  Proof.
    unfold residue_hits. induction n as [| n IH]; intros a; [reflexivity |].
    simpl. replace (s + (a + K)) with (s + a + 1 * K) by lia.
    rewrite Nat.Div0.mod_add.
    specialize (IH (S a)). simpl in IH. destruct ((s + a) mod K =? i); simpl; rewrite IH; reflexivity.
  Qed.

Lemma residue_window_inj : forall x y,
    x < K -> y < K -> (s + x) mod K = (s + y) mod K -> x = y.
  Proof.
    intros x y Hx Hy Hxy.
    pose proof (Nat.div_mod_eq (s + x) K) as Ex.
    pose proof (Nat.div_mod_eq (s + y) K) as Ey.
    rewrite Hxy in Ex.
    destruct (Nat.lt_total ((s + x) / K) ((s + y) / K)) as [H | [H | H]]; nia.
  Qed.

Lemma residue_hits_le_1 : forall n, n <= K -> residue_hits K s i (seq 0 n) <= 1.
  Proof.
    intros n Hn. unfold residue_hits.
    pose proof (NoDup_filter (fun j => Nat.eqb ((s + j) mod K) i) (seq_NoDup n 0)) as Hnd.
    assert (Hall : forall x, In x (filter (fun j => Nat.eqb ((s + j) mod K) i) (seq 0 n)) ->
                   x < K /\ (s + x) mod K = i).
    { intros x Hx. apply filter_In in Hx as [Hx Heq]. apply in_seq in Hx.
      apply Nat.eqb_eq in Heq. split; [lia | exact Heq]. }
    destruct (filter _ (seq 0 n)) as [| x [| y r]]; simpl; [lia | lia |].
    exfalso. inversion Hnd as [| ? ? Hnx _]; subst.
    destruct (Hall x (or_introl eq_refl)) as [Hx Ex].
    destruct (Hall y (or_intror (or_introl eq_refl))) as [Hy Ey].
    apply Hnx. left. symmetry. apply residue_window_inj; [exact Hx | exact Hy | congruence].
  Qed.

Lemma residue_hits_period : residue_hits K s i (seq 0 K) = 1.
  Proof.
    apply Nat.le_antisymm; [apply residue_hits_le_1; lia |].
    set (j0 := (i + K - s) mod K).
    assert (Hj0 : In j0 (filter (fun j => Nat.eqb ((s + j) mod K) i) (seq 0 K))).
    { apply filter_In. split.
      - apply in_seq. split; [lia |]. simpl. apply Nat.mod_upper_bound. lia.
      - apply Nat.eqb_eq. unfold j0. rewrite Nat.Div0.add_mod_idemp_r.
        replace (s + (i + K - s)) with (i + 1 * K) by lia.
        rewrite Nat.Div0.mod_add. apply Nat.mod_small. exact Hi. }
    unfold residue_hits.
    destruct (filter _ (seq 0 K)); [destruct Hj0 | simpl; lia].
  Qed.

Lemma residue_hits_add_period : forall n,
    residue_hits K s i (seq 0 (K + n)) = 1 + residue_hits K s i (seq 0 n).
  Proof.
    intros n. rewrite seq_app.
    unfold residue_hits at 1. rewrite filter_app, length_app.
    fold (residue_hits K s i (seq 0 K)). fold (residue_hits K s i (seq (0 + K) n)).
    rewrite residue_hits_period, residue_hits_shift. reflexivity.
  Qed.

Lemma residue_hits_bounds : forall n,
    residue_hits K s i (seq 0 n) = n / K \/
    residue_hits K s i (seq 0 n) = (n + K - 1) / K.
  Proof.
    intros n. induction n as [n IH] using lt_wf_ind.
    destruct (Nat.lt_ge_cases n K) as [Hlt | Hge].
    - pose proof (residue_hits_le_1 n ltac:(lia)) as Hle.
      rewrite (Nat.div_small n K Hlt).
      destruct n as [| n'].
      + left. reflexivity.
      + replace (S n' + K - 1) with (1 * K + n') by lia.
        rewrite Nat.div_add_l by lia. rewrite Nat.div_small by lia.
        destruct (residue_hits K s i (seq 0 (S n'))) as [| [| x]]; lia.
    - replace n with (K + (n - K)) by lia.
      rewrite residue_hits_add_period.
      destruct (IH (n - K) ltac:(lia)) as [E | E]; rewrite E; [left | right].
      + replace (K + (n - K)) with (1 * K + (n - K)) by lia.
        rewrite Nat.div_add_l by lia. reflexivity.
      + replace (K + (n - K) + K - 1) with (1 * K + (n - K + K - 1)) by lia.
        rewrite Nat.div_add_l by lia. reflexivity.
  Qed.
End Residues.

Lemma count_walk : forall (ks : list string) s i l,
  NoDup ks -> i < List.length ks ->
  count_occ opt_denom_eq_dec
    (map (fun j => Some (nth ((s + j) mod List.length ks) ks ""%string)) l)
    (Some (nth i ks ""%string))
  = residue_hits (List.length ks) s i l.
Proof.
  intros ks s i l Hnd Hi. unfold residue_hits.
  assert (HK : List.length ks <> 0) by lia.
  induction l as [| x l IH]; [reflexivity |]. cbn [map filter count_occ].
  assert (Hx : (s + x) mod List.length ks < List.length ks) by (apply Nat.mod_upper_bound; exact HK).
  destruct (opt_denom_eq_dec (Some (nth ((s + x) mod List.length ks) ks ""%string))
                              (Some (nth i ks ""%string))) as [E | E];
    destruct (Nat.eqb_spec ((s + x) mod List.length ks) i) as [F | F];
    cbn [List.length]; rewrite ?IH;
    try reflexivity;
    exfalso; first
      [ apply F; injection E as E; exact (proj1 (NoDup_nth ks ""%string) Hnd _ _ Hx Hi E)
      | apply E; now rewrite F ].
Qed.

End RoundRobin.

(** C4: on a fixed non-empty ledger (ascending keys) and from any cursor,
    [n] successive calls of [Action::next] walk the keys in ascending cyclic
    order from some starting position [s], and select each key exactly
    [n / K] or [ceil(n / K) = (n + K - 1) / K] times, [K] being the number
    of Actions. *)
Theorem round_robin_fair : forall (st : Storage) (n : nat),
  keys_sorted st.(ACTIONS) -> st.(ACTIONS) <> [] ->
  let ks := map fst st.(ACTIONS) in
  let K := List.length ks in
  (exists s, (s < K)%nat /\
     next_trace n st = map (fun j => Some (nth ((s + j) mod K) ks ""%string)) (seq 0 n)) /\
  (forall k, In k ks ->
     count_occ opt_denom_eq_dec (next_trace n st) (Some k) = (n / K)%nat \/
     count_occ opt_denom_eq_dec (next_trace n st) (Some k) = ((n + K - 1) / K)%nat).
Proof.
  intros [cfg last m] n Hs Hne. simpl in Hs, Hne. simpl.
  destruct (trace_shape n cfg last m Hs Hne) as [s [Hs' Ht]].
  split; [exists s; split; assumption |].
  intros k Hk. rewrite Ht.
  destruct (In_nth (map fst m) k ""%string Hk) as [i [Hi Hnth]]. rewrite <- Hnth.
  rewrite (count_walk (map fst m) s i (seq 0 n) (keys_sorted_NoDup m Hs) Hi).
  apply residue_hits_bounds; lia.
Qed.

Lemma round_robin_fair_witness :
  keys_sorted ledger_abcde /\ ledger_abcde <> [] /\
  let st := mkStorage scenario_config (Some "token-c") ledger_abcde in
  let ks := map fst st.(ACTIONS) in
  let K := List.length ks in
  (exists s, (s < K)%nat /\
     next_trace 7 st = map (fun j => Some (nth ((s + j) mod K) ks ""%string)) (seq 0 7)) /\
  (forall k, In k ks ->
     count_occ opt_denom_eq_dec (next_trace 7 st) (Some k) = (7 / K)%nat \/
     count_occ opt_denom_eq_dec (next_trace 7 st) (Some k) = ((7 + K - 1) / K)%nat).
Proof.
  assert (H : keys_sorted ledger_abcde).
  { unfold keys_sorted, ledger_abcde, ledger_abc. simpl. repeat constructor. }
  split; [exact H |]. split; [discriminate |].
  exact (round_robin_fair (mkStorage scenario_config (Some "token-c") ledger_abcde) 7
           H ltac:(discriminate)).
Defined.

(** ** The [ACTIONS] map: [Action::set], [Action::unset] *)

Lemma str_compare_gt_ltb : forall a b, String.compare a b = Gt -> str_ltb b a = true.
Proof.
  intros a b H. unfold str_ltb. rewrite String.compare_antisym, H. reflexivity.
Qed.

Lemma str_compare_neq_eqb : forall a b, String.compare a b <> Eq -> String.eqb b a = false.
Proof.
  intros a b H. apply String.eqb_neq. intros ->. apply H. apply str_compare_refl.
Qed.

Lemma map_save_In : forall k v m y,
  In y (map_save k v m) -> y = (k, v) \/ In y m.
Proof.
  induction m as [| [k' v'] rest IH]; intros y Hy; simpl in Hy.
  - destruct Hy as [Hy | []]. left; symmetry; exact Hy.
  - destruct (String.compare k k'); simpl in Hy.
    + destruct Hy as [Hy | Hy]; [left; symmetry; exact Hy | right; right; exact Hy].
    + destruct Hy as [Hy | Hy]; [left; symmetry; exact Hy | right; exact Hy].
    + destruct Hy as [Hy | Hy]; [right; left; exact Hy |].
      destruct (IH y Hy); [left | right; right]; assumption.
Qed.

Lemma map_save_keys_sorted : forall k v m,
  keys_sorted m -> keys_sorted (map_save k v m).
Proof.
  unfold keys_sorted.
  induction m as [| [k' v'] rest IH]; intros Hs; simpl.
  - repeat constructor.
  - apply StronglySorted_inv in Hs as [Hr Hk].
    destruct (String.compare k k') eqn:Hc.
    + apply String.compare_eq_iff in Hc. subst k'. constructor; assumption.
    + assert (Hlt : str_ltb k k' = true) by (unfold str_ltb; rewrite Hc; reflexivity).
      constructor; [constructor; assumption |].
      constructor; [exact Hlt |].
      eapply Forall_impl; [| exact Hk]. intros y Hy. exact (str_ltb_trans _ _ _ Hlt Hy).
    + constructor; [exact (IH Hr) |].
      apply Forall_forall. intros y Hy. apply map_save_In in Hy as [-> | Hy].
      * exact (str_compare_gt_ltb _ _ Hc).
      * rewrite Forall_forall in Hk. exact (Hk y Hy).
Qed.

Lemma map_remove_keys_sorted : forall k m,
  keys_sorted m -> keys_sorted (map_remove k m).
Proof. intros k m H. unfold map_remove. apply StronglySorted_filter. exact H. Qed.

Lemma map_find_save_same : forall k v m,
  find (fun e : string * ActionEntry => String.eqb (fst e) k) (map_save k v m) = Some (k, v).
Proof.
  induction m as [| [k' v'] rest IH]; simpl.
  - rewrite String.eqb_refl. reflexivity.
  - destruct (String.compare k k') eqn:Hc; simpl; try (rewrite String.eqb_refl; reflexivity).
    rewrite (str_compare_neq_eqb k k') by congruence. exact IH.
Qed.

Lemma map_load_save_other : forall k v m d,
  d <> k -> map_load d (map_save k v m) = map_load d m.
Proof.
  intros k v m d Hd. unfold map_load.
  assert (Hkd : String.eqb k d = false) by (apply String.eqb_neq; congruence).
  induction m as [| [k' v'] rest IH]; simpl.
  - rewrite Hkd. reflexivity.
  - destruct (String.compare k k') eqn:Hc; simpl; rewrite ?Hkd; try reflexivity.
    + apply String.compare_eq_iff in Hc. subst k'. rewrite Hkd. reflexivity.
    + destruct (String.eqb k' d); [reflexivity | exact IH].
Qed.

Lemma map_load_remove_other : forall k m d,
  d <> k -> map_load d (map_remove k m) = map_load d m.
Proof.
  intros k m d Hd. unfold map_load, map_remove.
  induction m as [| [k' v'] rest IH]; simpl; [reflexivity |].
  destruct (String.eqb k' k) eqn:Hk; simpl.
  - apply String.eqb_eq in Hk. subst k'.
    assert (Hkd : String.eqb k d = false) by (apply String.eqb_neq; congruence).
    rewrite Hkd. exact IH.
  - destruct (String.eqb k' d); [reflexivity | exact IH].
Qed.

Lemma map_remove_absent : forall k m, ~ In k (map fst m) -> map_remove k m = m.
Proof.
  intros k m. unfold map_remove.
  induction m as [| [k' v'] rest IH]; intros Hn; simpl; [reflexivity |].
  simpl in Hn.
  assert (Hk : String.eqb k' k = false) by (apply String.eqb_neq; intros ->; tauto).
  rewrite Hk. simpl. f_equal. apply IH. tauto.
Qed.

Lemma map_remove_save_fresh : forall k v m,
  ~ In k (map fst m) -> map_remove k (map_save k v m) = m.
Proof.
  intros k v m. unfold map_remove.
  induction m as [| [k' v'] rest IH]; intros Hn; simpl.
  - rewrite String.eqb_refl. reflexivity.
  - simpl in Hn.
    assert (Hk : String.eqb k' k = false) by (apply String.eqb_neq; intros ->; tauto).
    destruct (String.compare k k') eqn:Hc; simpl.
    + apply String.compare_eq_iff in Hc. subst k'. tauto.
    + rewrite String.eqb_refl. simpl. rewrite Hk. simpl. f_equal.
      exact (map_remove_absent k rest ltac:(tauto)).
    + rewrite Hk. simpl. f_equal. apply IH. tauto.
Qed.

Lemma map_save_overwrite : forall k v1 v2 m,
  map_save k v2 (map_save k v1 m) = map_save k v2 m.
Proof.
  induction m as [| [k' v'] rest IH]; simpl.
  - rewrite str_compare_refl. reflexivity.
  - destruct (String.compare k k') eqn:Hc; simpl; rewrite ?str_compare_refl, ?Hc;
      try reflexivity.
    rewrite IH. reflexivity.
Qed.

Lemma filter_key_absent : forall k (l : ActionMap),
  ~ In k (map fst l) ->
  filter (fun e : string * ActionEntry => String.eqb (fst e) k) l = [].
Proof.
  induction l as [| [k' v'] rest IH]; intros Hn; simpl in *; [reflexivity |].
  assert (Hk : String.eqb k' k = false) by (apply String.eqb_neq; intros ->; tauto).
  rewrite Hk. apply IH. tauto.
Qed.

Lemma filter_key_unique : forall k (l : ActionMap) e,
  NoDup (map fst l) ->
  find (fun e : string * ActionEntry => String.eqb (fst e) k) l = Some e ->
  filter (fun e : string * ActionEntry => String.eqb (fst e) k) l = [e].
Proof.
  induction l as [| [k' v'] rest IH]; intros e Hnd Hf; simpl in *; [discriminate |].
  inversion Hnd as [| ? ? Hn Hnd']; subst.
  destruct (String.eqb k' k) eqn:Hk.
  - inversion Hf; subst. f_equal. apply String.eqb_eq in Hk. subst k'.
    apply filter_key_absent. exact Hn.
  - exact (IH e Hnd' Hf).
Qed.

(** ** [execute]: the owner's messages *)

Lemma execute_set_action_eq : forall bal st a,
  execute bal st.(CONFIG).(owner) (SetAction a) st = (Ok response_default, action_set st a).
Proof. intros. unfold execute. cbn. rewrite String.eqb_refl. reflexivity. Qed.

Lemma execute_unset_action_eq : forall bal st d,
  execute bal st.(CONFIG).(owner) (UnsetAction d) st = (Ok response_default, action_unset st d).
Proof. intros. unfold execute. cbn. rewrite String.eqb_refl. reflexivity. Qed.

Lemma execute_set_owner_eq : forall bal st o,
  execute bal st.(CONFIG).(owner) (SetOwner o) st =
  (Ok response_default, save_config st
     (mkConfig o st.(CONFIG).(executor) st.(CONFIG).(target_denoms)
        st.(CONFIG).(target_addresses))).
Proof. intros. unfold execute. cbn. rewrite String.eqb_refl. reflexivity. Qed.

Lemma execute_set_executor_eq : forall bal st e,
  execute bal st.(CONFIG).(owner) (SetExecutor e) st =
  (Ok response_default, save_config st
     (mkConfig st.(CONFIG).(owner) e st.(CONFIG).(target_denoms)
        st.(CONFIG).(target_addresses))).
Proof. intros. unfold execute. cbn. rewrite String.eqb_refl. reflexivity. Qed.

Lemma queried_actions_eq : forall st,
  queried_actions st =
  map (fun e : string * ActionEntry =>
         let '(d, (c, l, m)) := e in ActionResponse.mk d c l m) st.(ACTIONS).
Proof.
  intros st. unfold queried_actions, query, action_all. simpl.
  rewrite map_map. apply map_ext. intros [d [[c l] m]]. reflexivity.
Qed.

Lemma queried_actions_filter : forall st k,
  filter (fun x => String.eqb (ActionResponse.denom x) k) (queried_actions st) =
  map (fun e : string * ActionEntry =>
         let '(d, (c, l, m)) := e in ActionResponse.mk d c l m)
      (filter (fun e : string * ActionEntry => String.eqb (fst e) k) st.(ACTIONS)).
Proof.
  intros st k. rewrite queried_actions_eq, filter_map_swap. f_equal.
  apply filter_ext. intros [d [[c l] m]]. reflexivity.
Qed.

(** X1: the owner's [SetAction a] answers the default response and stores
    [a] under its denom: afterwards the Actions query lists exactly one
    entry for that denom, [a] itself; the entries of the other denoms, the
    config and the cursor are unchanged. *)
Theorem set_action_stored : forall bal st a,
  keys_sorted st.(ACTIONS) ->
  let '(r, st') := execute bal st.(CONFIG).(owner) (SetAction a) st in
  r = Ok response_default /\
  filter (fun x => String.eqb (ActionResponse.denom x) a.(denom)) (queried_actions st')
    = [action_response_from a] /\
  (forall d, d <> a.(denom) -> map_load d st'.(ACTIONS) = map_load d st.(ACTIONS)) /\
  st'.(CONFIG) = st.(CONFIG) /\ st'.(LAST) = st.(LAST).
Proof.
  intros bal st [d c l m] Hs. rewrite execute_set_action_eq.
  split; [reflexivity |]. split; [| split; [| split; reflexivity]].
  - rewrite queried_actions_filter. unfold action_set, save_actions. simpl.
    rewrite (filter_key_unique d _ (d, (c, l, m))).
    + reflexivity.
    + apply keys_sorted_NoDup, map_save_keys_sorted, Hs.
    + apply map_find_save_same.
  - intros d' Hd. exact (map_load_save_other _ _ _ _ Hd).
Qed.

Lemma set_action_stored_witness :
  let st := mkStorage scenario_config (Some "token-b") ledger_abc in
  let a := mkAction "token-b" "contract-z" 7 "" in
  keys_sorted st.(ACTIONS) /\
  let '(r, st') := execute scenario_balances st.(CONFIG).(owner) (SetAction a) st in
  r = Ok response_default /\
  filter (fun x => String.eqb (ActionResponse.denom x) a.(denom)) (queried_actions st')
    = [action_response_from a] /\
  (forall d, d <> a.(denom) -> map_load d st'.(ACTIONS) = map_load d st.(ACTIONS)) /\
  st'.(CONFIG) = st.(CONFIG) /\ st'.(LAST) = st.(LAST).
Proof.
  intros st a.
  assert (H : keys_sorted st.(ACTIONS)).
  { unfold keys_sorted. simpl. repeat constructor. }
  split; [exact H |].
  exact (set_action_stored scenario_balances st a H).
Defined.

(** X2: the owner's [UnsetAction d] never fails, answers the default
    response and removes [d] from the ledger: the Actions query lists no
    entry for [d]; the other entries, the config and the cursor are
    unchanged; and removing a denom that is not in the ledger changes
    nothing. *)
Theorem unset_action_removed : forall bal st d,
  let '(r, st') := execute bal st.(CONFIG).(owner) (UnsetAction d) st in
  r = Ok response_default /\
  filter (fun x => String.eqb (ActionResponse.denom x) d) (queried_actions st') = [] /\
  (forall d', d' <> d -> map_load d' st'.(ACTIONS) = map_load d' st.(ACTIONS)) /\
  st'.(CONFIG) = st.(CONFIG) /\ st'.(LAST) = st.(LAST) /\
  (~ In d (map fst st.(ACTIONS)) -> st' = st).
Proof.
  intros bal st d. rewrite execute_unset_action_eq.
  split; [reflexivity |]. split; [| split; [| split; [reflexivity | split; [reflexivity |]]]].
  - rewrite queried_actions_filter. unfold action_unset, save_actions, map_remove. simpl.
    induction (ACTIONS st) as [| [k e] rest IH]; simpl; [reflexivity |].
    destruct (String.eqb k d) eqn:Hk; simpl; [exact IH |]. rewrite Hk. exact IH.
  - intros d' Hd. exact (map_load_remove_other _ _ _ Hd).
  - intros Hn. unfold action_unset, save_actions. rewrite (map_remove_absent d _ Hn).
    destruct st; reflexivity.
Qed.

(** X3: setting an Action for a denom absent from the ledger and then
    unsetting that denom, both by the owner, gives back the storage as it
    was. *)
Theorem set_unset_roundtrip : forall bal st a,
  ~ In a.(denom) (map fst st.(ACTIONS)) ->
  let st1 := snd (execute bal st.(CONFIG).(owner) (SetAction a) st) in
  snd (execute bal st1.(CONFIG).(owner) (UnsetAction a.(denom)) st1) = st.
Proof.
  intros bal st a Hn. cbv zeta. rewrite execute_set_action_eq. cbn [snd].
  rewrite execute_unset_action_eq. cbn [snd].
  unfold action_unset, action_set, save_actions. simpl.
  rewrite map_remove_save_fresh by exact Hn. destruct st; reflexivity.
Qed.

Lemma set_unset_roundtrip_witness :
  ~ In "token-z" (map fst ledger_abc) /\
  let st := mkStorage scenario_config (Some "token-b") ledger_abc in
  let a := mkAction "token-z" "contract-z" 5 "" in
  let st1 := snd (execute scenario_balances st.(CONFIG).(owner) (SetAction a) st) in
  snd (execute scenario_balances st1.(CONFIG).(owner) (UnsetAction a.(denom)) st1) = st.
Proof.
  assert (H : ~ In "token-z" (map fst ledger_abc)).
  { simpl. intros [H | [H | [H | []]]]; discriminate H. }
  split; [exact H |].
  exact (set_unset_roundtrip scenario_balances
           (mkStorage scenario_config (Some "token-b") ledger_abc)
           (mkAction "token-z" "contract-z" 5 "") H).
Defined.

(** X4: setting an Action twice for the same denom leaves the storage of
    the second [SetAction] alone: the later Action replaces the earlier one. *)
Theorem set_action_overwrites : forall bal st a c l m,
  let st1 := snd (execute bal st.(CONFIG).(owner) (SetAction a) st) in
  snd (execute bal st1.(CONFIG).(owner) (SetAction (mkAction a.(denom) c l m)) st1) =
  snd (execute bal st.(CONFIG).(owner) (SetAction (mkAction a.(denom) c l m)) st).
Proof.
  intros bal st a c l m. cbv zeta. rewrite execute_set_action_eq. cbn [snd].
  rewrite !execute_set_action_eq. cbn [snd].
  unfold action_set, save_actions. simpl. rewrite map_save_overwrite. reflexivity.
Qed.

(** ** [execute]: the storage it writes *)

Lemma action_next_storage : forall st,
  snd (action_next st) = st \/
  exists k, In k (map fst st.(ACTIONS)) /\ snd (action_next st) = save_last st k.
Proof.
  intros st. unfold action_next.
  destruct (hd_error (range (LAST st) (ACTIONS st))) as [[k [[c l] m]] |] eqn:Hh.
  - right. exists k. split; [| reflexivity].
    apply hd_error_In in Hh.
    assert (Hin : In (k, (c, l, m)) (ACTIONS st)).
    { destruct (LAST st); simpl in Hh; [apply filter_In in Hh; tauto | exact Hh]. }
    exact (in_map fst _ _ Hin).
  - destruct (ACTIONS st) as [| [k [[c l] m]] r]; simpl.
    + left. reflexivity.
    + right. exists k. split; [left; reflexivity | reflexivity].
Qed.

Lemma run_storage : forall bal sender st,
  snd (execute bal sender Run st) = st \/
  exists k, In k (map fst st.(ACTIONS)) /\ snd (execute bal sender Run st) = save_last st k.
Proof.
  intros bal sender st. unfold execute, bindM, config_load, throw. simpl.
  destruct (negb _); [left; reflexivity |].
  unfold get_action_msg, bindM, action_next_M, lift, ret.
  pose proof (action_next_storage st) as Hs.
  destruct (action_next st) as [[a |] st'] eqn:E; simpl in Hs.
  - destruct (action_execute a (query_balance bal (denom a))) as [[msg |] | e | p];
      simpl; try exact Hs.
    destruct (_ (target_denoms (CONFIG st)) []) as [sends | e | p]; exact Hs.
  - destruct (_ (target_denoms (CONFIG st)) []) as [sends | e | p]; exact Hs.
Qed.

Lemma queried_actions_sorted : forall st,
  keys_sorted st.(ACTIONS) ->
  StronglySorted (fun x y => str_ltb (ActionResponse.denom x) (ActionResponse.denom y) = true)
    (queried_actions st).
Proof.
  intros st. rewrite queried_actions_eq. unfold keys_sorted.
  induction (ACTIONS st) as [| [k [[c l] m]] rest IH]; intros Hs; simpl; [constructor |].
  apply StronglySorted_inv in Hs as [Hr Hk]. constructor; [exact (IH Hr) |].
  apply Forall_forall. intros y Hy. apply in_map_iff in Hy as [[k' [[c' l'] m']] [<- Hy]].
  rewrite Forall_forall in Hk. exact (Hk _ Hy).
Qed.

(** X5: every [execute], whoever sends it, keeps the keys of the ledger
    strictly ascending; so the Actions query lists the Actions in strictly
    ascending denom order, one per denom. *)
Theorem execute_keeps_keys_sorted : forall bal sender m st,
  keys_sorted st.(ACTIONS) ->
  keys_sorted (snd (execute bal sender m st)).(ACTIONS) /\
  StronglySorted (fun x y => str_ltb (ActionResponse.denom x) (ActionResponse.denom y) = true)
    (queried_actions (snd (execute bal sender m st))).
Proof.
  intros bal sender m st Hs.
  assert (H : keys_sorted (snd (execute bal sender m st)).(ACTIONS)).
  { destruct m as [o | e | a | d |].
    - unfold execute, bindM, config_load, throw, modify, ret. simpl.
      destruct (negb _); exact Hs.
    - unfold execute, bindM, config_load, throw, modify, ret. simpl.
      destruct (negb _); exact Hs.
    - unfold execute, bindM, config_load, throw, modify, ret. simpl.
      destruct (negb _); [exact Hs |]. apply map_save_keys_sorted, Hs.
    - unfold execute, bindM, config_load, throw, modify, ret. simpl.
      destruct (negb _); [exact Hs |]. apply map_remove_keys_sorted, Hs.
    - destruct (run_storage bal sender st) as [-> | [k [_ ->]]]; exact Hs. }
  split; [exact H | exact (queried_actions_sorted _ H)].
Qed.

Lemma execute_keeps_keys_sorted_witness :
  keys_sorted ledger_abc /\
  keys_sorted (snd (execute scenario_balances "owner" (UnsetAction "token-b")
                      (mkStorage scenario_config None ledger_abc))).(ACTIONS) /\
  StronglySorted (fun x y => str_ltb (ActionResponse.denom x) (ActionResponse.denom y) = true)
    (queried_actions (snd (execute scenario_balances "owner" (UnsetAction "token-b")
                             (mkStorage scenario_config None ledger_abc)))).
Proof.
  assert (H : keys_sorted ledger_abc) by (unfold keys_sorted; simpl; repeat constructor).
  split; [exact H |].
  exact (execute_keeps_keys_sorted scenario_balances "owner" (UnsetAction "token-b")
           (mkStorage scenario_config None ledger_abc) H).
Defined.

(** X6: [Run], whoever sends it and whatever its outcome, writes only the
    cursor: the config and the ledger are unchanged, and the Status query
    afterwards reports either the cursor as it was or a denom of the
    ledger. *)
Theorem run_only_moves_cursor : forall bal sender st,
  let st' := snd (execute bal sender Run st) in
  st'.(CONFIG) = st.(CONFIG) /\ st'.(ACTIONS) = st.(ACTIONS) /\
  (queried_status st' = queried_status st \/
   exists k, In k (map fst st.(ACTIONS)) /\ queried_status st' = Some k).
Proof.
  intros bal sender st. simpl.
  destruct (run_storage bal sender st) as [-> | [k [Hk ->]]].
  - split; [reflexivity | split; [reflexivity | left; reflexivity]].
  - split; [reflexivity | split; [reflexivity | right; exists k; split; [exact Hk | reflexivity]]].
Qed.

(** ** [Run] by the executor *)

Lemma fold_weights_not_err : forall ts a e, fold_weights a ts <> Err e.
Proof.
  induction ts as [| [x w] ts IH]; intros a e; simpl; [discriminate |].
  unfold u8_add. destruct (w + a <=? U8_MAX); simpl; [apply IH | discriminate].
Qed.

Lemma distribute_loop_not_err : forall ts d b T r sends e,
  distribute_loop d b T r ts sends <> Err e.
Proof.
  induction ts as [| [addr w] ts IH]; intros d b T r sends e; simpl; [discriminate |].
  destruct (match ts with
            | [] => Ok r
            | _ :: _ => let* ratio := decimal_from_ratio w T in
                        uint128_mul_floor b ratio
            end) as [amt | e' | p] eqn:Hamt; simpl.
  - destruct (amt =? 0); [apply IH |].
    destruct (uint128_sub r amt) eqn:Hsub; simpl; [apply IH | | discriminate].
    unfold uint128_sub in Hsub. destruct (amt <=? r); discriminate.
  - exfalso. destruct ts as [| t ts]; [discriminate |].
    unfold decimal_from_ratio, uint128_mul_floor in Hamt.
    destruct (T =? 0); [discriminate |].
    destruct (_ <=? UINT128_MAX); simpl in Hamt; [| discriminate].
    destruct (_ <=? UINT128_MAX); discriminate.
  - discriminate.
Qed.

Lemma distribute_denom_not_err : forall bal cfg sends d e,
  distribute_denom bal cfg sends d <> Err e.
Proof.
  intros bal cfg sends d e. unfold distribute_denom.
  destruct (fold_weights 0 (target_addresses cfg)) as [T | e' | p] eqn:Hf; simpl.
  - destruct (negb _); [apply distribute_loop_not_err | discriminate].
  - exfalso. exact (fold_weights_not_err _ _ _ Hf).
  - discriminate.
Qed.

Lemma execute_reply_not_err : forall st bal e, execute_reply st bal <> Err e.
Proof.
  intros st bal e. unfold execute_reply.
  generalize (@nil CosmosMsg) as sends. generalize (target_denoms (CONFIG st)) as ts.
  induction ts as [| t ts IH]; intros sends; simpl; [discriminate |].
  destruct (distribute_denom bal (CONFIG st) sends t) as [s' | e' | p] eqn:E; simpl.
  - apply IH.
  - exfalso. exact (distribute_denom_not_err _ _ _ _ _ E).
  - discriminate.
Qed.

Lemma run_executor_eq : forall bal st,
  execute bal st.(CONFIG).(executor) Run st =
  match action_next st with
  | (Some a, st') =>
      let total := Z.min (bal a.(denom)) a.(limit) in
      if total =? 0 then (execute_reply st' bal, st')
      else (Ok (mkResponse
                  [mkSubMsg 0 (WasmExecute a.(contract) a.(msg) (coins total a.(denom))) Always]
                  [mkEvent "revenue/run" [("denom", a.(denom))]]), st')
  | (None, st') => (execute_reply st' bal, st')
  end.
Proof.
  intros bal st. unfold execute, bindM, config_load. simpl. rewrite String.eqb_refl. simpl.
  unfold get_action_msg, bindM, action_next_M, lift, ret.
  pose proof (action_next_storage st) as Hs.
  destruct (action_next st) as [[a |] st'] eqn:E; simpl in Hs;
    assert (Hc : CONFIG st' = CONFIG st) by (destruct Hs as [-> | [k [_ ->]]]; reflexivity).
  - unfold action_execute, query_balance. simpl. rewrite String.eqb_refl. simpl.
    destruct (Z.min (bal (denom a)) (limit a) =? 0); simpl; [| reflexivity].
    unfold execute_reply. rewrite Hc.
    destruct (_ (target_denoms (CONFIG st)) []); reflexivity.
  - unfold execute_reply. rewrite Hc.
    destruct (_ (target_denoms (CONFIG st)) []); reflexivity.
Qed.

Lemma run_executor_not_err : forall bal st e,
  fst (execute bal st.(CONFIG).(executor) Run st) <> Err e.
Proof.
  intros bal st e. rewrite run_executor_eq.
  destruct (action_next st) as [[a |] st']; cbv zeta.
  - destruct (Z.min (bal (denom a)) (limit a) =? 0); simpl;
      [apply execute_reply_not_err | discriminate].
  - apply execute_reply_not_err.
Qed.

Lemma execute_gated_other : forall bal st sender m,
  owner_gated m = true -> sender <> st.(CONFIG).(owner) ->
  execute bal sender m st = (Err Unauthorized, st).
Proof.
  intros bal st sender m Hm Hs.
  assert (Hb : String.eqb sender (owner (CONFIG st)) = false) by (apply String.eqb_neq; exact Hs).
  destruct m; simpl in Hm; try discriminate;
    unfold execute, bindM, config_load, throw; simpl; rewrite Hb; reflexivity.
Qed.

Lemma execute_gated_owner : forall bal st m,
  owner_gated m = true -> fst (execute bal st.(CONFIG).(owner) m st) = Ok response_default.
Proof.
  intros bal st m Hm.
  destruct m; simpl in Hm; try discriminate;
    unfold execute, bindM, config_load, throw, modify, ret; simpl;
    rewrite String.eqb_refl; reflexivity.
Qed.

Lemma execute_run_other : forall bal st sender,
  sender <> st.(CONFIG).(executor) -> execute bal sender Run st = (Err Unauthorized, st).
Proof.
  intros bal st sender Hs.
  assert (Hb : String.eqb sender (executor (CONFIG st)) = false) by (apply String.eqb_neq; exact Hs).
  unfold execute, bindM, config_load, throw; simpl; rewrite Hb; reflexivity.
Qed.

(** X7: a [Run] by the executor first advances the cursor with
    [Action::next].  If an Action [a] is selected and [min(balance, limit)]
    of its denom is not zero, the answer is exactly one submessage, id 0
    with a reply in every case, executing [a]'s message on [a]'s contract
    with that amount of [a]'s denom as funds, and one [revenue/run] event
    naming the denom.  Otherwise (empty ledger, or an Action with nothing to
    send) the answer is the one of [execute_reply] on the storage with the
    advanced cursor. *)
Theorem run_by_executor : forall bal st,
  execute bal st.(CONFIG).(executor) Run st =
  match action_next st with
  | (Some a, st') =>
      let total := Z.min (bal a.(denom)) a.(limit) in
      if total =? 0 then (execute_reply st' bal, st')
      else (Ok (mkResponse
                  [mkSubMsg 0 (WasmExecute a.(contract) a.(msg) (coins total a.(denom))) Always]
                  [mkEvent "revenue/run" [("denom", a.(denom))]]), st')
  | (None, st') => (execute_reply st' bal, st')
  end.
Proof. exact run_executor_eq. Qed.

(** X8: the only contract error [Run] can answer is [Unauthorized], exactly
    when the sender is not the executor: the [Invalid Denom] check of
    [Action::execute] is never hit from [Run], and the distribution can only
    panic. *)
Theorem run_errors_only_unauthorized : forall bal sender st e,
  fst (execute bal sender Run st) = Err e <->
  (e = Unauthorized /\ sender <> st.(CONFIG).(executor)).
Proof.
  intros bal sender st e.
  destruct (string_dec sender (executor (CONFIG st))) as [-> | Hne].
  - split.
    + intros H. exfalso. exact (run_executor_not_err bal st e H).
    + intros [_ H]. exfalso. apply H. reflexivity.
  - rewrite (execute_run_other bal st sender Hne). simpl.
    split; [intros H; inversion H; subst; split; [reflexivity | exact Hne] |].
    intros [-> _]. reflexivity.
Qed.

(** X9: the owner's [SetOwner o] replaces the owner by [o] and keeps the
    executor, the targets, the ledger and the cursor; from then on the
    owner's messages are refused, unchanged storage, to every sender but [o],
    and accepted from [o]. *)
Theorem set_owner_transfers : forall bal st o,
  let '(r, st') := execute bal st.(CONFIG).(owner) (SetOwner o) st in
  r = Ok response_default /\
  st'.(CONFIG) = mkConfig o st.(CONFIG).(executor) st.(CONFIG).(target_denoms)
                   st.(CONFIG).(target_addresses) /\
  st'.(ACTIONS) = st.(ACTIONS) /\ st'.(LAST) = st.(LAST) /\
  (forall sender m, owner_gated m = true -> sender <> o ->
     execute bal sender m st' = (Err Unauthorized, st')) /\
  (forall m, owner_gated m = true -> fst (execute bal o m st') = Ok response_default).
Proof.
  intros bal st o. rewrite execute_set_owner_eq.
  split; [reflexivity |]. split; [reflexivity |].
  split; [reflexivity |]. split; [reflexivity |]. split.
  - intros sender m Hm Hs. apply execute_gated_other; [exact Hm | exact Hs].
  - intros m Hm. exact (execute_gated_owner bal _ m Hm).
Qed.

(** X10: the owner's [SetExecutor e] replaces the executor by [e] and keeps
    the owner, the targets, the ledger and the cursor; from then on [Run]
    is refused, unchanged storage, to every sender but [e], and never
    answers a contract error to [e]. *)
Theorem set_executor_moves_run : forall bal st e,
  let '(r, st') := execute bal st.(CONFIG).(owner) (SetExecutor e) st in
  r = Ok response_default /\
  st'.(CONFIG) = mkConfig st.(CONFIG).(owner) e st.(CONFIG).(target_denoms)
                   st.(CONFIG).(target_addresses) /\
  st'.(ACTIONS) = st.(ACTIONS) /\ st'.(LAST) = st.(LAST) /\
  (forall sender, sender <> e -> execute bal sender Run st' = (Err Unauthorized, st')) /\
  (forall err, fst (execute bal e Run st') <> Err err).
Proof.
  intros bal st e. rewrite execute_set_executor_eq.
  split; [reflexivity |]. split; [reflexivity |].
  split; [reflexivity |]. split; [reflexivity |]. split.
  - intros sender Hs. apply execute_run_other. exact Hs.
  - intros err. exact (run_executor_not_err bal _ err).
Qed.

(** ** The transfers of the distribution *)

Lemma fold_weights_nonneg : forall ts a T,
  0 <= a -> Forall (fun t => 0 <= snd t) ts -> fold_weights a ts = Ok T -> 0 <= T.
Proof.
  induction ts as [| [x w] ts IH]; intros a T Ha Hts H; simpl in H.
  - inversion H; subst; exact Ha.
  - inversion Hts as [| ? ? Hw Hrest]; subst. simpl in Hw.
    unfold u8_add in H. destruct (w + a <=? U8_MAX); simpl in H; [| discriminate].
    exact (IH (w + a) T ltac:(lia) Hrest H).
Qed.

Lemma distribute_loop_shape : forall ts d b T r sends out,
  0 <= b -> 0 <= r -> 0 <= T -> Forall (fun t => 0 <= snd t) ts ->
  distribute_loop d b T r ts sends = Ok out ->
  exists new, out = sends ++ new /\ (List.length new <= List.length ts)%nat /\
    Forall (fun m => exists a w x, In (a, w) ts /\ 0 < x /\ m = denom_send d a x) new.
Proof.
  induction ts as [| [addr w] ts IH]; intros d b T r sends out Hb Hr HT Hts H; simpl in H.
  - inversion H; subst. exists []. rewrite app_nil_r. split; [reflexivity |].
    split; [simpl; lia | constructor].
  - inversion Hts as [| ? ? Hw Hrest]; subst. simpl in Hw.
    assert (Hmono : forall new, Forall (fun m => exists a w' x, In (a, w') ts /\ 0 < x /\
                                                  m = denom_send d a x) new ->
                    Forall (fun m => exists a w' x, In (a, w') ((addr, w) :: ts) /\ 0 < x /\
                                                  m = denom_send d a x) new).
    { intros new Hn. eapply Forall_impl; [| exact Hn].
      intros m [a [w' [x [Hin [Hx Hm]]]]]. exists a, w', x.
      split; [right; exact Hin | split; assumption]. }
    destruct (match ts with
              | [] => Ok r
              | _ :: _ => let* ratio := decimal_from_ratio w T in
                          uint128_mul_floor b ratio
              end) as [amt | e | p] eqn:Hamt; simpl in H; try discriminate.
    assert (Hamt0 : 0 <= amt).
    { destruct ts as [| t ts']; [inversion Hamt; subst; exact Hr |].
      unfold decimal_from_ratio, uint128_mul_floor in Hamt.
      destruct (T =? 0) eqn:HT0; [discriminate |]. apply Z.eqb_neq in HT0.
      destruct (w * DECIMAL_FRACTIONAL / T <=? UINT128_MAX); simpl in Hamt; [| discriminate].
      destruct (_ <=? UINT128_MAX); inversion Hamt; subst.
      apply Z.div_pos; [| unfold DECIMAL_FRACTIONAL; lia].
      apply Z.mul_nonneg_nonneg; [exact Hb |].
      apply Z.div_pos; [| lia]. apply Z.mul_nonneg_nonneg; [exact Hw | unfold DECIMAL_FRACTIONAL; lia]. }
    destruct (amt =? 0) eqn:Hz.
    + destruct (IH d b T r sends out Hb Hr HT Hrest H) as [new [Hout [Hlen Hnew]]].
      exists new. split; [exact Hout |]. split; [simpl; lia | exact (Hmono new Hnew)].
    + apply Z.eqb_neq in Hz.
      unfold uint128_sub in H. destruct (amt <=? r) eqn:Hle; simpl in H; [| discriminate].
      apply Z.leb_le in Hle.
      destruct (IH d b T (r - amt) _ out Hb ltac:(lia) HT Hrest H) as [new [Hout [Hlen Hnew]]].
      exists (denom_send d addr amt :: new). rewrite <- app_assoc in Hout.
      split; [exact Hout |]. split; [simpl; lia |].
      constructor; [| exact (Hmono new Hnew)].
      exists addr, w, amt. split; [left; reflexivity | split; [lia | reflexivity]].
Qed.

Lemma distribute_denom_shape : forall bal cfg sends d out,
  0 <= bal d -> Forall (fun t => 0 <= snd t) cfg.(target_addresses) ->
  distribute_denom bal cfg sends d = Ok out ->
  exists new, out = sends ++ new /\
    (List.length new <= List.length cfg.(target_addresses))%nat /\
    Forall (fun m => exists a w x, In (a, w) cfg.(target_addresses) /\ 0 < x /\
                                   m = denom_send d a x) new.
Proof.
  intros bal cfg sends d out Hb Hts H. unfold distribute_denom in H.
  destruct (fold_weights 0 (target_addresses cfg)) as [T | e | p] eqn:Hf; simpl in H;
    try discriminate.
  pose proof (fold_weights_nonneg _ 0 T ltac:(lia) Hts Hf) as HT.
  destruct (negb (bal d =? 0)).
  - exact (distribute_loop_shape _ d (bal d) T (bal d) sends out Hb Hb HT Hts H).
  - inversion H; subst. exists []. rewrite app_nil_r.
    split; [reflexivity | split; [simpl; lia | constructor]].
Qed.

(** X11: a successful [distribute_denom] for denom [d] only appends to the
    transfers it is given: at most one per target, each a bank transfer of
    a positive amount of [d] to one of the configured target addresses
    (balances and weights non-negative, as [Uint128] and [u8] are). *)
Theorem distribute_denom_appends_transfers : forall bal cfg sends d out,
  0 <= bal d -> Forall (fun t => 0 <= snd t) cfg.(target_addresses) ->
  distribute_denom bal cfg sends d = Ok out ->
  exists new, out = sends ++ new /\
    (List.length new <= List.length cfg.(target_addresses))%nat /\
    Forall (fun m => exists a w x, In (a, w) cfg.(target_addresses) /\ 0 < x /\
                                   m = denom_send d a x) new.
Proof. exact distribute_denom_shape. Qed.

Lemma distribute_denom_appends_transfers_witness :
  let cfg := mkConfig "owner" "executor" ["ukuji"] [("fee", 1); ("another", 3)] in
  0 <= 1000 /\ Forall (fun t => 0 <= snd t) cfg.(target_addresses) /\
  distribute_denom (fun _ => 1000) cfg [] "ukuji"
    = Ok [denom_send "ukuji" "fee" 250; denom_send "ukuji" "another" 750] /\
  exists new, [denom_send "ukuji" "fee" 250; denom_send "ukuji" "another" 750] = [] ++ new /\
    (List.length new <= List.length cfg.(target_addresses))%nat /\
    Forall (fun m => exists a w x, In (a, w) cfg.(target_addresses) /\ 0 < x /\
                                   m = denom_send "ukuji" a x) new.
Proof.
  intros cfg.
  assert (H1 : 0 <= 1000) by lia.
  assert (H2 : Forall (fun t => 0 <= snd t) cfg.(target_addresses))
    by (simpl; repeat constructor; simpl; lia).
  assert (H3 : distribute_denom (fun _ => 1000) cfg [] "ukuji"
               = Ok [denom_send "ukuji" "fee" 250; denom_send "ukuji" "another" 750])
    by reflexivity.
  split; [exact H1 | split; [exact H2 | split; [exact H3 |]]].
  exact (distribute_denom_appends_transfers (fun _ => 1000) cfg [] "ukuji" _ H1 H2 H3).
Defined.

(** X12: [distribute_denom] sends nothing, and does not fail, for a denom
    whose balance is zero or when no target address is configured, as long
    as the [u8] sum of the weights does not overflow. *)
Theorem distribute_nothing : forall bal cfg sends d,
  Forall (fun t => 0 <= snd t) cfg.(target_addresses) ->
  sum_weights cfg.(target_addresses) <= U8_MAX ->
  (bal d = 0 \/ cfg.(target_addresses) = []) ->
  distribute_denom bal cfg sends d = Ok sends.
Proof.
  intros bal cfg sends d Hts Hsum Hcase. unfold distribute_denom.
  rewrite fold_weights_ok by (assumption || lia). simpl.
  destruct Hcase as [Hz | Hnil].
  - rewrite Hz. reflexivity.
  - rewrite Hnil. destruct (negb (bal d =? 0)); reflexivity.
Qed.

Lemma distribute_nothing_witness :
  let cfg := mkConfig "owner" "executor" ["ukuji"] [("fee", 1); ("another", 3)] in
  Forall (fun t => 0 <= snd t) cfg.(target_addresses) /\
  sum_weights cfg.(target_addresses) <= U8_MAX /\
  (scenario_balances "ukuji" = 0 \/ cfg.(target_addresses) = []) /\
  distribute_denom scenario_balances cfg [] "ukuji" = Ok [].
Proof.
  intros cfg.
  assert (H1 : Forall (fun t => 0 <= snd t) cfg.(target_addresses))
    by (simpl; repeat constructor; simpl; lia).
  assert (H2 : sum_weights cfg.(target_addresses) <= U8_MAX) by (vm_compute; discriminate).
  assert (H3 : scenario_balances "ukuji" = 0 \/ cfg.(target_addresses) = [])
    by (left; reflexivity).
  split; [exact H1 | split; [exact H2 | split; [exact H3 |]]].
  exact (distribute_nothing scenario_balances cfg [] "ukuji" H1 H2 H3).
Defined.

Lemma sweep_shape : forall bal cfg ts sends out,
  (forall d, 0 <= bal d) -> Forall (fun t => 0 <= snd t) cfg.(target_addresses) ->
  (fix go (ts : list Denom) (sends : list CosmosMsg) :=
     match ts with
     | [] => Ok sends
     | target :: rest =>
         let* sends' := distribute_denom bal cfg sends target in
         go rest sends'
     end) ts sends = Ok out ->
  exists new, out = sends ++ new /\
    (List.length new <= List.length ts * List.length cfg.(target_addresses))%nat /\
    Forall (fun m => exists d a w x, In d ts /\ In (a, w) cfg.(target_addresses) /\ 0 < x /\
                                     m = denom_send d a x) new.
Proof.
  intros bal cfg ts. induction ts as [| t ts IH]; intros sends out Hb Hts H.
  - inversion H; subst. exists []. rewrite app_nil_r.
    split; [reflexivity | split; [simpl; lia | constructor]].
  - simpl in H.
    destruct (distribute_denom bal cfg sends t) as [s1 | e | p] eqn:E; simpl in H;
      try discriminate.
    destruct (distribute_denom_shape bal cfg sends t s1 (Hb t) Hts E)
      as [n1 [Hs1 [Hl1 Hf1]]].
    destruct (IH s1 out Hb Hts H) as [n2 [Hs2 [Hl2 Hf2]]].
    exists (n1 ++ n2). subst. rewrite app_assoc. split; [reflexivity |].
    split; [rewrite length_app; simpl; lia |].
    apply Forall_app. split.
    + eapply Forall_impl; [| exact Hf1]. intros m [a [w [x [Hin [Hx Hm]]]]].
      exists t, a, w, x. split; [left; reflexivity | tauto].
    + eapply Forall_impl; [| exact Hf2]. intros m [d [a [w [x [Hd Hrest]]]]].
      exists d, a, w, x. split; [right; exact Hd | exact Hrest].
Qed.

(** X13: a successful reply (the sweep) carries no event and at most one
    transfer per target denom and target address; each message is a plain
    submessage (id 0, no reply) of a bank transfer of a positive amount of
    a target denom to a target address. *)
Theorem reply_sends_to_targets : forall bal st r,
  (forall d, 0 <= bal d) -> Forall (fun t => 0 <= snd t) st.(CONFIG).(target_addresses) ->
  execute_reply st bal = Ok r ->
  r.(events) = [] /\
  (List.length r.(messages) <=
     List.length st.(CONFIG).(target_denoms) * List.length st.(CONFIG).(target_addresses))%nat /\
  Forall (fun s => exists d a w x, In d st.(CONFIG).(target_denoms) /\
                                   In (a, w) st.(CONFIG).(target_addresses) /\ 0 < x /\
                                   s = submsg_new (denom_send d a x)) r.(messages).
Proof.
  intros bal st r Hb Hts H. unfold execute_reply in H.
  destruct (_ (target_denoms (CONFIG st)) []) as [sends | e | p] eqn:E; simpl in H;
    try discriminate.
  inversion H; subst. clear H.
  destruct (sweep_shape bal (CONFIG st) (target_denoms (CONFIG st)) [] sends Hb Hts E)
    as [new [-> [Hl Hf]]].
  simpl. split; [reflexivity |]. split; [rewrite length_map; exact Hl |].
  apply Forall_map. eapply Forall_impl; [| exact Hf].
  intros m [d [a [w [x [Hd [Ha [Hx ->]]]]]]]. exists d, a, w, x. tauto.
Qed.

Lemma reply_sends_to_targets_witness :
  let r := add_messages response_default
             [denom_send "ukuji" "fee" 250; denom_send "ukuji" "another" 750;
              denom_send "another" "fee" 500; denom_send "another" "another" 1500] in
  (forall d, 0 <= distribution_balances d) /\
  Forall (fun t => 0 <= snd t) distribution_storage.(CONFIG).(target_addresses) /\
  execute_reply distribution_storage distribution_balances = Ok r /\
  r.(events) = [] /\
  (List.length r.(messages) <=
     List.length distribution_storage.(CONFIG).(target_denoms) *
     List.length distribution_storage.(CONFIG).(target_addresses))%nat /\
  Forall (fun s => exists d a w x, In d distribution_storage.(CONFIG).(target_denoms) /\
                                   In (a, w) distribution_storage.(CONFIG).(target_addresses) /\
                                   0 < x /\ s = submsg_new (denom_send d a x))
    r.(messages).
Proof.
  intros r.
  assert (H1 : forall d, 0 <= distribution_balances d).
  { intros d. unfold distribution_balances.
    repeat match goal with |- context [if ?c then _ else _] => destruct c end; lia. }
  assert (H2 : Forall (fun t => 0 <= snd t) distribution_storage.(CONFIG).(target_addresses))
    by (simpl; repeat constructor; simpl; lia).
  assert (H3 : execute_reply distribution_storage distribution_balances = Ok r)
    by reflexivity.
  split; [exact H1 | split; [exact H2 | split; [exact H3 |]]].
  exact (reply_sends_to_targets distribution_balances distribution_storage r H1 H2 H3).
Defined.

(** ** [instantiate] and [migrate] *)

(** X14: [instantiate] answers the default response, records the contract
    name and the given version in the [cw2] item, and installs the
    message's config: the Config query answers exactly the message's owner,
    executor, target denoms and target addresses; the owner's messages are
    refused to every sender but the message's owner, and [Run] to every
    sender but the message's executor. *)
Theorem instantiate_installs_config : forall v m d,
  let '(r, d') := instantiate v m d in
  r = Ok response_default /\
  d'.(contract_info) = Some (Cw2.mk CONTRACT_NAME v) /\
  query d'.(store) QueryMsg.Config =
    Ok (ConfigAnswer (ConfigResponse.mk (InstantiateMsg.owner m) (InstantiateMsg.executor m)
                        (InstantiateMsg.target_denoms m) (InstantiateMsg.target_addresses m))) /\
  (forall bal sender em, owner_gated em = true -> sender <> InstantiateMsg.owner m ->
     execute bal sender em d'.(store) = (Err Unauthorized, d'.(store))) /\
  (forall bal sender, sender <> InstantiateMsg.executor m ->
     execute bal sender Run d'.(store) = (Err Unauthorized, d'.(store))).
Proof.
  intros v m d. simpl.
  split; [reflexivity |]. split; [reflexivity |]. split; [reflexivity |]. split.
  - intros bal sender em Hm Hs. apply execute_gated_other; [exact Hm | exact Hs].
  - intros bal sender Hs. apply execute_run_other. exact Hs.
Qed.

(** X15: [migrate] answers the default response, records the contract name
    and the new version, and replaces the config by the message's; it keeps
    the ledger and the cursor, so the Actions and Status queries answer as
    before the migration. *)
Theorem migrate_keeps_ledger_and_cursor : forall v m d,
  let '(r, d') := migrate v m d in
  r = Ok response_default /\
  d'.(contract_info) = Some (Cw2.mk CONTRACT_NAME v) /\
  d'.(store).(CONFIG) = config_from m /\
  queried_actions d'.(store) = queried_actions d.(store) /\
  queried_status d'.(store) = queried_status d.(store).
Proof.
  intros v m d. simpl.
  split; [reflexivity |]. split; [reflexivity |]. split; [reflexivity |].
  split; reflexivity.
Qed.
